(** * async_blp: the reference-data handler ([handler_refdata.py])

    A shallow embedding of [HandlerRef], the object that receives the events
    of a Bloomberg session on the session's own thread and hands the messages
    over to the requests waiting for them.

    The handler is a Python object with mutable fields that acts on three
    things outside itself: the [blpapi] session, the asyncio loop and the
    queues of the requests.  All of it is one record, [Handler], threaded
    through a state-and-exception monad: a Python exception leaves the
    mutations made so far in place, so a computation returns the state also
    when it raises. *)

From Stdlib Require Import List String Bool Arith NArith Lia.
Import ListNotations.
Local Open Scope string_scope.
Local Open Scope list_scope.

(** ** Python dictionaries

    A [dict] keeps its keys in insertion order; assigning to a key that is
    present replaces the value where it stands.  The handler iterates over
    two of its dictionaries, so the order is part of the model. *)

Class Key (K : Type) := {
  key_eqb : K -> K -> bool;
  key_eqb_spec : forall a b, reflect (a = b) (key_eqb a b)
}.

#[export] Instance Key_N : Key N :=
  {| key_eqb := N.eqb; key_eqb_spec := N.eqb_spec |}.

#[export] Instance Key_string : Key string :=
  {| key_eqb := String.eqb; key_eqb_spec := String.eqb_spec |}.

Module Dict.
Section Ops.
Context {K V : Type} `{Key K}.

Definition t := list (K * V).

Definition empty : t := [].

(** [d.get(k)]: the value, or nothing where [d[k]] raises [KeyError]. *)
Fixpoint get (k : K) (d : t) : option V :=
  match d with
  | [] => None
  | (k', v) :: d' => if key_eqb k k' then Some v else get k d'
  end.

(** [k in d] *)
Definition mem (k : K) (d : t) : bool :=
  match get k d with Some _ => true | None => false end.

(** [d[k] = v] *)
Fixpoint set (k : K) (v : V) (d : t) : t :=
  match d with
  | [] => [(k, v)]
  | (k', v') :: d' =>
      if key_eqb k k' then (k', v) :: d' else (k', v') :: set k v d'
  end.

(** [d.values()] and [d.items()], in insertion order *)
Definition values (d : t) : list V := map snd d.
Definition items (d : t) : list (K * V) := d.
End Ops.
Arguments t : clear implicits.
End Dict.

(** ** What [blpapi] hands to the handler *)

(** [blpapi.CorrelationId(uuid.uuid4())]: the 128-bit value of the UUID. *)
Definition CorrelationId := N.

(** [blpapi.Event.EventType] *)
Inductive EventType :=
| ADMIN | SESSION_STATUS | SUBSCRIPTION_STATUS | REQUEST_STATUS
| RESPONSE | PARTIAL_RESPONSE | SUBSCRIPTION_DATA | SERVICE_STATUS
| TIMEOUT | AUTHORIZATION_STATUS | RESOLUTION_STATUS | TOPIC_STATUS
| TOKEN_STATUS | REQUEST | UNKNOWN.

Definition EventType_eqb (a b : EventType) : bool :=
  match a, b with
  | ADMIN, ADMIN | SESSION_STATUS, SESSION_STATUS
  | SUBSCRIPTION_STATUS, SUBSCRIPTION_STATUS
  | REQUEST_STATUS, REQUEST_STATUS | RESPONSE, RESPONSE
  | PARTIAL_RESPONSE, PARTIAL_RESPONSE
  | SUBSCRIPTION_DATA, SUBSCRIPTION_DATA | SERVICE_STATUS, SERVICE_STATUS
  | TIMEOUT, TIMEOUT | AUTHORIZATION_STATUS, AUTHORIZATION_STATUS
  | RESOLUTION_STATUS, RESOLUTION_STATUS | TOPIC_STATUS, TOPIC_STATUS
  | TOKEN_STATUS, TOKEN_STATUS | REQUEST, REQUEST | UNKNOWN, UNKNOWN => true
  | _, _ => false
  end.

Lemma EventType_eqb_spec a b : reflect (a = b) (EventType_eqb a b).
Proof. destruct a, b; constructor; congruence. Qed.

#[export] Instance Key_EventType : Key EventType :=
  {| key_eqb := EventType_eqb; key_eqb_spec := EventType_eqb_spec |}.

(** [blpapi.Message], as far as the handler looks at it: the name of its
    top element ([msg.asElement().name()]), the names of the elements it
    contains ([msg.hasElement]) and the correlation ids it is tagged with
    ([msg.correlationIds()]). *)
Record Message := {
  name : string;
  elements : list string;
  correlationIds : list CorrelationId
}.

Definition hasElement (msg : Message) (element : string) : bool :=
  existsb (String.eqb element) (elements msg).

(** [blpapi.Event]: the type tag and the messages, which can be iterated
    over any number of times. *)
Record Event := {
  eventType : EventType;
  messages : list Message
}.

(** Modelled from the spec: the designated response-error marker field.
    [utils/blp_name.py], which defines [RESPONSE_ERROR], is not among the
    sources; the docstring of [_is_error_msg] names the element. *)
Definition RESPONSE_ERROR : string := "responseError".

(** Modelled from the spec: [ReferenceDataRequest], of [requests.py], which
    is not among the sources.  A logical request is an object (identity
    [request_id]) that names the service it targets and owns an output
    channel; [send_queue_message] below is the push onto that channel. *)
Record ReferenceDataRequest := {
  request_id : nat;
  service_name : string
}.

Record SessionOptions := {
  serverHost : string;
  serverPort : N
}.

(** ** The world around the handler *)

(** Calls made on [self.session], in the order they are made. *)
Inductive SessionCall :=
| Session_new (options : SessionOptions)
| startAsync
| openServiceAsync (service_name : string)
| getService (service_name : string)
| sendRequest (request : ReferenceDataRequest) (correlationId : CorrelationId)
| stopAsync.

(** Callables handed to [loop.call_soon_threadsafe]: the [set] of one of
    the handler's [asyncio.Event]s.  The event of a service is created once
    per name and never replaced, so the name stands for the object. *)
Inductive Callback :=
| session_started_set
| session_stopped_set
| service_event_set (service_name : string).

Inductive Level := DEBUG | INFO | WARNING | ERROR | CRITICAL.

(** One constructor per logging call of the file. *)
Inductive LogLine :=
| log_session_started
| log_request_send (request : ReferenceDataRequest)
| log_error_message (msg : Message)
| log_session_opened
| log_session_stopped
| log_service_opened (service_name : string)
| log_event_received (event_type : EventType).

Inductive PyKey :=
| key_correlation_id (c : CorrelationId)
| key_event_type (t : EventType)
| key_service (s : string).

Inductive exn :=
| KeyError (key : PyKey)
| IndexError
| RuntimeError (text : string).

(** The fields of [HandlerRef] and what it acts on.  [self.loop] and
    [self.method_map] are assigned once, at the end of [__init__], and never
    again: a constructed handler has them, and [method_map] below is a
    constant.  [queues] is the chronological record of the calls of
    [send_queue_message], each with the request it was made on; [uuid_calls]
    counts the draws of [uuid.uuid4]; [get_service_calls] is a history
    variable that no operation reads: the names [_get_service] was called
    with. *)
Record Handler := {
  requests : Dict.t CorrelationId ReferenceDataRequest;
  session_started : bool;
  session_stopped : bool;
  services : Dict.t string bool;
  session : list SessionCall;
  loop : list Callback;
  queues : list (nat * option Message);
  logger : list (Level * LogLine);
  uuid_calls : nat;
  get_service_calls : list string
}.

Definition set_requests f (h : Handler) : Handler :=
  {| requests := f (requests h); session_started := session_started h;
     session_stopped := session_stopped h; services := services h;
     session := session h; loop := loop h; queues := queues h;
     logger := logger h; uuid_calls := uuid_calls h;
     get_service_calls := get_service_calls h |}.

Definition set_session_started b (h : Handler) : Handler :=
  {| requests := requests h; session_started := b;
     session_stopped := session_stopped h; services := services h;
     session := session h; loop := loop h; queues := queues h;
     logger := logger h; uuid_calls := uuid_calls h;
     get_service_calls := get_service_calls h |}.

Definition set_session_stopped b (h : Handler) : Handler :=
  {| requests := requests h; session_started := session_started h;
     session_stopped := b; services := services h;
     session := session h; loop := loop h; queues := queues h;
     logger := logger h; uuid_calls := uuid_calls h;
     get_service_calls := get_service_calls h |}.

Definition set_services f (h : Handler) : Handler :=
  {| requests := requests h; session_started := session_started h;
     session_stopped := session_stopped h; services := f (services h);
     session := session h; loop := loop h; queues := queues h;
     logger := logger h; uuid_calls := uuid_calls h;
     get_service_calls := get_service_calls h |}.

Definition set_session f (h : Handler) : Handler :=
  {| requests := requests h; session_started := session_started h;
     session_stopped := session_stopped h; services := services h;
     session := f (session h); loop := loop h; queues := queues h;
     logger := logger h; uuid_calls := uuid_calls h;
     get_service_calls := get_service_calls h |}.

Definition set_loop f (h : Handler) : Handler :=
  {| requests := requests h; session_started := session_started h;
     session_stopped := session_stopped h; services := services h;
     session := session h; loop := f (loop h); queues := queues h;
     logger := logger h; uuid_calls := uuid_calls h;
     get_service_calls := get_service_calls h |}.

Definition set_queues f (h : Handler) : Handler :=
  {| requests := requests h; session_started := session_started h;
     session_stopped := session_stopped h; services := services h;
     session := session h; loop := loop h; queues := f (queues h);
     logger := logger h; uuid_calls := uuid_calls h;
     get_service_calls := get_service_calls h |}.

Definition set_logger f (h : Handler) : Handler :=
  {| requests := requests h; session_started := session_started h;
     session_stopped := session_stopped h; services := services h;
     session := session h; loop := loop h; queues := queues h;
     logger := f (logger h); uuid_calls := uuid_calls h;
     get_service_calls := get_service_calls h |}.

Definition set_uuid_calls f (h : Handler) : Handler :=
  {| requests := requests h; session_started := session_started h;
     session_stopped := session_stopped h; services := services h;
     session := session h; loop := loop h; queues := queues h;
     logger := logger h; uuid_calls := f (uuid_calls h);
     get_service_calls := get_service_calls h |}.

Definition set_get_service_calls f (h : Handler) : Handler :=
  {| requests := requests h; session_started := session_started h;
     session_stopped := session_stopped h; services := services h;
     session := session h; loop := loop h; queues := queues h;
     logger := logger h; uuid_calls := uuid_calls h;
     get_service_calls := f (get_service_calls h) |}.

(** ** The monad of the methods *)

Inductive Result (A : Type) :=
| Ok (a : A)
| Raise (e : exn).
Arguments Ok {A} a.
Arguments Raise {A} e.

Definition M (A : Type) : Type := Handler -> Handler * Result A.

Definition ret {A} (a : A) : M A := fun h => (h, Ok a).

Definition raise {A} (e : exn) : M A := fun h => (h, Raise e).

Definition bind {A B} (m : M A) (k : A -> M B) : M B :=
  fun h =>
    match m h with
    | (h', Ok a) => k a h'
    | (h', Raise e) => (h', Raise e)
    end.

Definition modify (f : Handler -> Handler) : M unit := fun h => (f h, Ok tt).

Definition gets {A} (f : Handler -> A) : M A := fun h => (h, Ok (f h)).

Declare Scope py_scope.
Delimit Scope py_scope with py.
Notation "x <- m ;; k" := (bind m (fun x => k))
  (at level 61, m at next level, right associativity) : py_scope.
Notation "m ;; k" := (bind m (fun _ => k))
  (at level 61, right associativity) : py_scope.
Local Open Scope py_scope.

(** [for x in l: body(x)] *)
Fixpoint for_each {A} (body : A -> M unit) (l : list A) : M unit :=
  match l with
  | [] => ret tt
  | x :: l' => body x ;; for_each body l'
  end.

(** [[f(x) for x in l]]: the list is built before anything is done with
    it, and an exception in [f] leaves no list at all. *)
Fixpoint comprehension {A B} (f : A -> M B) (l : list A) : M (list B) :=
  match l with
  | [] => ret []
  | x :: l' => y <- f x ;; ys <- comprehension f l' ;; ret (y :: ys)
  end.

(** ** The primitives the methods call *)

Definition LOGGER_debug (line : LogLine) : M unit :=
  modify (set_logger (fun l => l ++ [(DEBUG, line)])).

Definition session_call (c : SessionCall) : M unit :=
  modify (set_session (fun l => l ++ [c])).

(** [self.loop.call_soon_threadsafe(callback)]; the loop is taken to be
    open for as long as the handler is used. *)
Definition call_soon_threadsafe (callback : Callback) : M unit :=
  modify (set_loop (fun l => l ++ [callback])).

(** Modelled from the spec: [request.send_queue_message], of [requests.py],
    is the push of a message or of the terminal sentinel ([None]) onto the
    request's output channel, which is unbounded and ordered. *)
Definition send_queue_message (request : ReferenceDataRequest)
    (msg : option Message) : M unit :=
  modify (set_queues (fun q => q ++ [(request_id request, msg)])).

(** [self.requests[cor_id]] *)
Definition requests_getitem (cor_id : CorrelationId) : M ReferenceDataRequest :=
  fun h =>
    match Dict.get cor_id (requests h) with
    | Some request => (h, Ok request)
    | None => (h, Raise (KeyError (key_correlation_id cor_id)))
    end.

(** [list(event_)[0]] *)
Definition first_message (event_ : Event) : M Message :=
  match messages event_ with
  | msg :: _ => ret msg
  | [] => raise IndexError
  end.

(** ** The methods of [HandlerRef] *)

Definition _close_requests (requests : list ReferenceDataRequest) : M unit :=
  for_each (fun request => send_queue_message request None) requests.

Definition _is_error_msg (msg : Message) : M bool :=
  if hasElement msg RESPONSE_ERROR then
    requests <- comprehension requests_getitem (correlationIds msg) ;;
    _close_requests requests ;;
    LOGGER_debug (log_error_message msg) ;;
    ret true
  else ret false.

Definition _session_handler (event_ : Event) : M unit :=
  msg <- first_message event_ ;;
  (if String.eqb (name msg) "SessionStarted" then
     LOGGER_debug log_session_opened ;;
     call_soon_threadsafe session_started_set
   else ret tt) ;;
  (if String.eqb (name msg) "SessionStopped" then
     LOGGER_debug log_session_stopped ;;
     call_soon_threadsafe session_stopped_set
   else ret tt).

Definition _service_handler (event_ : Event) : M unit :=
  msg <- first_message event_ ;;
  if String.eqb (name msg) "ServiceOpened" then
    items <- gets (fun h => Dict.items (services h)) ;;
    for_each (fun item : string * bool =>
                LOGGER_debug (log_service_opened (fst item)) ;;
                call_soon_threadsafe (service_event_set (fst item)))
             items
  else ret tt.

(** The body of the loop of [_partial_handler]. *)
Definition _partial_handler_msg (msg : Message) : M unit :=
  is_error <- _is_error_msg msg ;;
  if is_error then ret tt
  else
    for_each (fun cor_id =>
                request <- requests_getitem cor_id ;;
                send_queue_message request (Some msg))
             (correlationIds msg).

Definition _partial_handler (event_ : Event) : M unit :=
  for_each _partial_handler_msg (messages event_).

Definition _response_handler (event_ : Event) : M unit :=
  _partial_handler event_ ;;
  for_each (fun msg =>
              requests <- comprehension requests_getitem (correlationIds msg) ;;
              _close_requests requests)
           (messages event_).

(** The bound methods that [__init__] puts into [self.method_map]. *)
Inductive Method :=
| session_handler_method
| service_handler_method
| response_handler_method
| partial_handler_method.

Definition method_map : Dict.t EventType Method :=
  [ (SESSION_STATUS, session_handler_method);
    (SERVICE_STATUS, service_handler_method);
    (RESPONSE, response_handler_method);
    (PARTIAL_RESPONSE, partial_handler_method) ].

Definition invoke (m : Method) (event_ : Event) : M unit :=
  match m with
  | session_handler_method => _session_handler event_
  | service_handler_method => _service_handler event_
  | response_handler_method => _response_handler event_
  | partial_handler_method => _partial_handler event_
  end.

(** [self.method_map[event.eventType()]] *)
Definition method_map_getitem (t : EventType) : M Method :=
  match Dict.get t method_map with
  | Some m => ret m
  | None => raise (KeyError (key_event_type t))
  end.

(** [handler(event, session)], as the session calls it on its thread. *)
Definition __call__ (event : Event) : M unit :=
  LOGGER_debug (log_event_received (eventType event)) ;;
  method <- method_map_getitem (eventType event) ;;
  invoke method event.

Definition stop_session : M unit :=
  requests <- gets (fun h => Dict.values (requests h)) ;;
  _close_requests requests ;;
  session_call stopAsync.

(** ** Construction *)

(** Nothing exists before the constructor runs. *)
Definition blank : Handler :=
  {| requests := Dict.empty; session_started := false;
     session_stopped := false; services := Dict.empty;
     session := []; loop := []; queues := []; logger := [];
     uuid_calls := 0; get_service_calls := [] |}.

(** [HandlerRef.__init__].  [running_loop] tells whether
    [asyncio.get_running_loop()] finds a loop.  [AbsHandler] is not among
    the sources; its constructor is taken to do nothing.  The two
    [asyncio.Event]s are created unset. *)
Definition __init__ (session_options : SessionOptions) (running_loop : bool)
  : M unit :=
  modify (set_requests (fun _ => Dict.empty)) ;;
  modify (set_session_started false) ;;
  modify (set_session_stopped false) ;;
  modify (set_services (fun _ => Dict.empty)) ;;
  session_call (Session_new session_options) ;;
  session_call startAsync ;;
  LOGGER_debug log_session_started ;;
  if running_loop then ret tt
  else raise (RuntimeError "Please create handler inside asyncio loop").

(** [HandlerRef(session_options)] *)
Definition HandlerRef (session_options : SessionOptions) (running_loop : bool)
  : Handler * Result unit :=
  __init__ session_options running_loop blank.

(** ** The coroutines

    [send_requests] and [_get_service] are coroutines: the loop runs one up
    to an [await] that has to wait and takes it up again later.  A
    coroutine is its program point and its local variables; [task_step]
    runs it from one point to the next.  The points are closer together
    than the [await]s, so the model allows every schedule of the loop and
    more; the test of [_get_service] and what depends on it are one step,
    as no [await] separates them. *)

(** The three parts of [_get_service]. *)
Inductive GetServicePoint :=
| gs_enter      (* lines 89-91 *)
| gs_wait       (* line 94 *)
| gs_return.    (* lines 96-97 *)

(** The locals of [send_requests] inside its loop: [corr_id], [request]
    and the requests still to come. *)
Definition Iteration : Type :=
  CorrelationId * ReferenceDataRequest * list ReferenceDataRequest.

Inductive Task :=
| at_wait_session (requests : list ReferenceDataRequest)      (* line 69 *)
| at_for (requests : list ReferenceDataRequest)               (* lines 71-73 *)
| in_get_service (point : GetServicePoint) (service_name : string)
                 (caller : option Iteration)                  (* line 76 *)
| at_send (iteration : Iteration)                             (* lines 78-82 *)
| returned
| failed (e : exn).

(** Calling a coroutine function makes a coroutine that stands at its
    first line. *)
Definition send_requests (requests : list ReferenceDataRequest) : Task :=
  at_wait_session requests.

Definition _get_service (service_name : string) : Task :=
  in_get_service gs_enter service_name None.

(** [if service_name not in self.services: ...] *)
Definition _get_service_open (service_name : string) : M unit :=
  modify (set_get_service_calls (fun l => l ++ [service_name])) ;;
  known <- gets (fun h => Dict.mem service_name (services h)) ;;
  if known then ret tt
  else
    modify (set_services (Dict.set service_name false)) ;;
    session_call (openServiceAsync service_name).

(** [self.services[service_name]], the flag of the event found there *)
Definition services_getitem (service_name : string) : M bool :=
  fun h =>
    match Dict.get service_name (services h) with
    | Some flag => (h, Ok flag)
    | None => (h, Raise (KeyError (key_service service_name)))
    end.

Section Coroutines.
(** The values [uuid.uuid4()] returns, by the number of the draw. *)
Variable uuid4 : nat -> CorrelationId.

Definition uuid4_call : M CorrelationId :=
  fun h => (set_uuid_calls S h, Ok (uuid4 (uuid_calls h))).

Definition task_body (t : Task) : M Task :=
  match t with
  | at_wait_session requests =>
      started <- gets session_started ;;
      ret (if started then at_for requests else t)
  | at_for [] => ret returned
  | at_for (request :: rest) =>
      corr_id <- uuid4_call ;;
      modify (set_requests (Dict.set corr_id request)) ;;
      ret (in_get_service gs_enter (service_name request)
                          (Some (corr_id, request, rest)))
  | in_get_service gs_enter service_name caller =>
      _get_service_open service_name ;;
      ret (in_get_service gs_wait service_name caller)
  | in_get_service gs_wait service_name caller =>
      is_set <- services_getitem service_name ;;
      ret (if is_set then in_get_service gs_return service_name caller
           else t)
  | in_get_service gs_return service_name caller =>
      session_call (getService service_name) ;;
      ret (match caller with
           | Some iteration => at_send iteration
           | None => returned
           end)
  | at_send (corr_id, request, rest) =>
      (* [request.create(service)] is not among the sources: the call is
         recorded with the request that the wire request is made from *)
      session_call (sendRequest request corr_id) ;;
      LOGGER_debug (log_request_send request) ;;
      ret (at_for rest)
  | returned => ret returned
  | failed e => ret (failed e)
  end.

(** An exception ends the coroutine. *)
Definition task_step (t : Task) (h : Handler) : Handler * Task :=
  match task_body t h with
  | (h', Ok t') => (h', t')
  | (h', Raise e) => (h', failed e)
  end.

(** ** The loop *)

(** [event.set()] of the event kept for a service *)
Definition service_set (service_name : string) (d : Dict.t string bool)
  : Dict.t string bool :=
  map (fun item : string * bool =>
         if String.eqb (fst item) service_name then (fst item, true)
         else item) d.

Definition run_callback (callback : Callback) (h : Handler) : Handler :=
  match callback with
  | session_started_set => set_session_started true h
  | session_stopped_set => set_session_stopped true h
  | service_event_set service_name =>
      set_services (service_set service_name) h
  end.

(** ** The handler at work

    What can happen to a constructed handler: the session delivers an
    event on its thread, the loop runs the oldest callback it was handed,
    somebody calls [send_requests], [_get_service] or [stop_session], the
    loop takes a coroutine one step further.  An exception of [__call__]
    or [stop_session] goes to their caller and leaves the handler as it
    is then.  Each of these is taken as a whole: the steps of the two
    threads are interleaved, not their instructions. *)
Record System := {
  handler : Handler;
  tasks : list Task
}.

Inductive Action :=
| event_arrives (event : Event)
| loop_runs_callback
| call_send_requests (requests : list ReferenceDataRequest)
| call_get_service (service_name : string)
| call_stop_session
| task_runs (i : nat).

Fixpoint replace_nth {A} (i : nat) (x : A) (l : list A) : list A :=
  match l, i with
  | [], _ => []
  | _ :: l', 0 => x :: l'
  | y :: l', S i' => y :: replace_nth i' x l'
  end.

Definition step (a : Action) (s : System) : System :=
  match a with
  | event_arrives event =>
      {| handler := fst (__call__ event (handler s)); tasks := tasks s |}
  | loop_runs_callback =>
      match loop (handler s) with
      | [] => s
      | callback :: _ =>
          {| handler := run_callback callback
                          (set_loop (@tl Callback) (handler s));
             tasks := tasks s |}
      end
  | call_send_requests requests =>
      {| handler := handler s; tasks := tasks s ++ [send_requests requests] |}
  | call_get_service service_name =>
      {| handler := handler s;
         tasks := tasks s ++ [_get_service service_name] |}
  | call_stop_session =>
      {| handler := fst (stop_session (handler s)); tasks := tasks s |}
  | task_runs i =>
      match nth_error (tasks s) i with
      | None => s
      | Some t =>
          let (h', t') := task_step t (handler s) in
          {| handler := h'; tasks := replace_nth i t' (tasks s) |}
      end
  end.

Definition run (actions : list Action) (s : System) : System :=
  fold_left (fun s a => step a s) actions s.

(** A handler constructed inside a running loop, nothing called yet. *)
Definition start (session_options : SessionOptions) : System :=
  {| handler := fst (HandlerRef session_options true); tasks := [] |}.
End Coroutines.

(** ** Reading the state *)

(** What the queue of the request with identity [r] has received. *)
Definition channel (r : nat) (h : Handler) : list (option Message) :=
  map snd (filter (fun p => Nat.eqb (fst p) r) (queues h)).

Definition is_sentinel (item : option Message) : bool :=
  match item with None => true | Some _ => false end.

Definition sentinels (r : nat) (h : Handler) : nat :=
  List.length (filter is_sentinel (channel r h)).

(** * Properties *)

(** ** Dictionaries *)

Section DictFacts.
Context {K V : Type} `{Key K}.
Implicit Types (d : Dict.t K V) (k : K) (v : V).

Lemma key_eqb_refl k : key_eqb k k = true.
Proof. destruct (key_eqb_spec k k); congruence. Qed.

Lemma key_eqb_neq k k' : k <> k' -> key_eqb k k' = false.
Proof. destruct (key_eqb_spec k k'); congruence. Qed.

Lemma get_set_same k v d : Dict.get k (Dict.set k v d) = Some v.
Proof.
  induction d as [|[k' v'] d IH]; simpl.
  - now rewrite key_eqb_refl.
  - destruct (key_eqb_spec k k') as [->|Hne]; simpl.
    + now rewrite key_eqb_refl.
    + now rewrite (key_eqb_neq _ _ Hne).
Qed.

Lemma get_set_other k k' v d :
  k' <> k -> Dict.get k' (Dict.set k v d) = Dict.get k' d.
Proof.
  intros Hne. induction d as [|[k0 v0] d IH]; simpl.
  - now rewrite (key_eqb_neq _ _ Hne).
  - destruct (key_eqb_spec k k0) as [->|Hk]; simpl.
    + now rewrite (key_eqb_neq _ _ Hne).
    + destruct (key_eqb k' k0); auto.
Qed.

Lemma mem_set k k' v d :
  Dict.mem k' (Dict.set k v d) = key_eqb k' k || Dict.mem k' d.
Proof.
  unfold Dict.mem. destruct (key_eqb_spec k' k) as [->|Hne]; simpl.
  - now rewrite get_set_same.
  - now rewrite get_set_other.
Qed.

Lemma mem_set_keeps k k' v d :
  Dict.mem k' d = true -> Dict.mem k' (Dict.set k v d) = true.
Proof. intros Hm. rewrite mem_set, Hm. apply orb_true_r. Qed.

Lemma mem_get k d : Dict.mem k d = true <-> exists v, Dict.get k d = Some v.
Proof.
  unfold Dict.mem. destruct (Dict.get k d) as [v|].
  - split; eauto.
  - split; [discriminate | intros [v Hv]; discriminate].
Qed.
End DictFacts.

(** ** What a computation does to the handler

    The methods that the session thread runs, and [stop_session], leave the
    tables and the flags alone and add to the queues, to the log and to the
    callbacks handed to the loop.  [quiet h h'] says so of two states;
    [effect m h dq res] says that [m], run in [h], pushes exactly [dq],
    ends with [res] and is quiet otherwise. *)

Definition debug_only (lines : list (Level * LogLine)) : Prop :=
  Forall (fun line => fst line = DEBUG) lines.

Record quiet (h h' : Handler) : Prop := {
  quiet_requests : requests h' = requests h;
  quiet_started : session_started h' = session_started h;
  quiet_stopped : session_stopped h' = session_stopped h;
  quiet_services : services h' = services h;
  quiet_uuid : uuid_calls h' = uuid_calls h;
  quiet_history : get_service_calls h' = get_service_calls h;
  quiet_session : exists calls, session h' = session h ++ calls /\
      Forall (fun c => c = stopAsync) calls;
  quiet_logger : exists lines, logger h' = logger h ++ lines /\
      debug_only lines;
  quiet_loop : exists callbacks, loop h' = loop h ++ callbacks
}.

Lemma quiet_refl h : quiet h h.
Proof.
  split; auto; exists []; rewrite app_nil_r; auto.
  split; auto. constructor.
Qed.

Lemma quiet_trans h1 h2 h3 : quiet h1 h2 -> quiet h2 h3 -> quiet h1 h3.
Proof.
  intros [A1 A2 A3 A4 A5 A6 (c1 & A7 & C1) (l1 & A8 & D1) (k1 & A9)]
         [B1 B2 B3 B4 B5 B6 (c2 & B7 & C2) (l2 & B8 & D2) (k2 & B9)].
  split; try congruence.
  - exists (c1 ++ c2). rewrite B7, A7, app_assoc. split; auto.
    apply Forall_app; auto.
  - exists (l1 ++ l2). rewrite B8, A8, app_assoc. split; auto.
    apply Forall_app; auto.
  - exists (k1 ++ k2). now rewrite B9, A9, app_assoc.
Qed.

Definition effect {A} (m : M A) (h : Handler)
    (dq : list (nat * option Message)) (res : Result A) : Prop :=
  snd (m h) = res /\
  queues (fst (m h)) = queues h ++ dq /\
  quiet h (fst (m h)).

(** A step that only appends to one of the records is quiet. *)
Ltac appended :=
  first [ reflexivity | symmetry; apply app_nil_r ].

Ltac quiet_step :=
  split; simpl; try reflexivity;
  eexists; first [ split; [ appended | repeat constructor ] | appended ].

Ltac effect_step :=
  unfold effect; simpl; split; [ reflexivity | ];
  split; [ rewrite ?app_nil_r; reflexivity | quiet_step ].

Lemma effect_ret {A} (a : A) h : effect (ret a) h [] (Ok a).
Proof. effect_step. Qed.

Lemma effect_raise {A} e h : effect (@raise A e) h [] (Raise e).
Proof. effect_step. Qed.

Lemma effect_gets {A} (f : Handler -> A) h : effect (gets f) h [] (Ok (f h)).
Proof. effect_step. Qed.

Lemma effect_bind {A B} (m : M A) (k : A -> M B) h dq a dq' res :
  effect m h dq (Ok a) ->
  effect (k a) (fst (m h)) dq' res ->
  effect (bind m k) h (dq ++ dq') res.
Proof.
  unfold effect, bind. destruct (m h) as [h1 r1]; simpl.
  intros (-> & Hq & Hs) (Hr & Hq' & Hs').
  split; [exact Hr|]. split.
  - now rewrite Hq', Hq, app_assoc.
  - eapply quiet_trans; eauto.
Qed.

Lemma effect_bind_raise {A B} (m : M A) (k : A -> M B) h dq e :
  effect m h dq (Raise e) -> effect (bind m k) h dq (Raise e).
Proof.
  unfold effect, bind. destruct (m h) as [h1 r1]; simpl.
  intros (-> & Hq & Hs). auto.
Qed.

Lemma effect_bind_nil {A B} (m : M A) (k : A -> M B) h a dq res :
  effect m h [] (Ok a) ->
  effect (k a) (fst (m h)) dq res ->
  effect (bind m k) h dq res.
Proof. intros Hm Hk. apply (effect_bind _ _ _ _ _ _ _ Hm Hk). Qed.

Lemma effect_bind_cons {A B} (m : M A) (k : A -> M B) h a p dq res :
  effect m h [p] (Ok a) ->
  effect (k a) (fst (m h)) dq res ->
  effect (bind m k) h (p :: dq) res.
Proof. intros Hm Hk. apply (effect_bind _ _ _ _ _ _ _ Hm Hk). Qed.

Lemma effect_LOGGER_debug line h : effect (LOGGER_debug line) h [] (Ok tt).
Proof. effect_step. Qed.

Lemma effect_call_soon_threadsafe callback h :
  effect (call_soon_threadsafe callback) h [] (Ok tt).
Proof. effect_step. Qed.

Lemma effect_stopAsync h : effect (session_call stopAsync) h [] (Ok tt).
Proof. effect_step. Qed.

Lemma effect_send_queue_message request msg h :
  effect (send_queue_message request msg) h [(request_id request, msg)]
         (Ok tt).
Proof. effect_step. Qed.

Lemma effect_requests {A} (m : M A) h dq res :
  effect m h dq res -> requests (fst (m h)) = requests h.
Proof. intros (_ & _ & Hq). apply Hq. Qed.

(** ** Looking correlation ids up *)

(** The outcome of looking up [cor_ids] one after the other in the table
    [d]: the first one that is missing raises. *)
Fixpoint check (d : Dict.t CorrelationId ReferenceDataRequest)
    (cor_ids : list CorrelationId) : Result unit :=
  match cor_ids with
  | [] => Ok tt
  | c :: cs =>
      match Dict.get c d with
      | Some _ => check d cs
      | None => Raise (KeyError (key_correlation_id c))
      end
  end.

(** The requests that [cor_ids] name in [d], in the order of [cor_ids]. *)
Definition owners (d : Dict.t CorrelationId ReferenceDataRequest)
    (cor_ids : list CorrelationId) : list ReferenceDataRequest :=
  flat_map (fun c => match Dict.get c d with Some r => [r] | None => [] end)
           cor_ids.

Definition registered (d : Dict.t CorrelationId ReferenceDataRequest)
    (cor_ids : list CorrelationId) : bool :=
  forallb (fun c => Dict.mem c d) cor_ids.

(** All correlation ids of all messages are in the table. *)
Definition all_registered (d : Dict.t CorrelationId ReferenceDataRequest)
    (msgs : list Message) : bool :=
  forallb (fun msg => registered d (correlationIds msg)) msgs.

Definition is_error (msg : Message) : bool := hasElement msg RESPONSE_ERROR.

Definition sentinel_for (r : ReferenceDataRequest) : nat * option Message :=
  (request_id r, None).

(** What the loop of [_partial_handler] pushes for one message when its
    correlation ids are registered. *)
Definition forwarding (d : Dict.t CorrelationId ReferenceDataRequest)
    (msg : Message) : list (nat * option Message) :=
  map (fun r => (request_id r, if is_error msg then None else Some msg))
      (owners d (correlationIds msg)).

(** What the second loop of [_response_handler] pushes for one message. *)
Definition closing (d : Dict.t CorrelationId ReferenceDataRequest)
    (msg : Message) : list (nat * option Message) :=
  map sentinel_for (owners d (correlationIds msg)).

(** An item pushed for [msg]: the sentinel if [msg] has the error marker,
    [msg] itself if not. *)
Definition item_of (msg : Message) (p : nat * option Message) : Prop :=
  snd p = if is_error msg then None else Some msg.

Definition item_from (msgs : list Message) (p : nat * option Message) : Prop :=
  exists msg, In msg msgs /\ item_of msg p.

Lemma check_app d a b :
  check d (a ++ b) =
  match check d a with Ok _ => check d b | Raise e => Raise e end.
Proof.
  induction a as [|c a IH]; simpl; auto.
  destruct (Dict.get c d); auto.
Qed.

Lemma check_registered d cor_ids :
  registered d cor_ids = true -> check d cor_ids = Ok tt.
Proof.
  unfold registered. induction cor_ids as [|c cs IH]; simpl; auto.
  intros [Hc Hcs]%andb_prop. apply mem_get in Hc as [r ->]. auto.
Qed.

Lemma check_raises d cor_ids e :
  check d cor_ids = Raise e ->
  exists c, In c cor_ids /\ Dict.mem c d = false /\
            e = KeyError (key_correlation_id c).
Proof.
  induction cor_ids as [|c cs IH]; simpl; [discriminate|].
  destruct (Dict.get c d) as [r|] eqn:Hget.
  - intros (c' & Hin & Hm & He)%IH. eauto.
  - intros [= <-]. exists c. unfold Dict.mem. rewrite Hget. auto.
Qed.

Lemma check_unregistered d cor_ids :
  registered d cor_ids = false -> exists e, check d cor_ids = Raise e.
Proof.
  unfold registered. induction cor_ids as [|c cs IH]; simpl; [discriminate|].
  unfold Dict.mem at 1. destruct (Dict.get c d); simpl; eauto.
Qed.

Lemma check_all_registered d msgs :
  all_registered d msgs = true ->
  check d (flat_map correlationIds msgs) = Ok tt.
Proof.
  unfold all_registered. induction msgs as [|msg msgs IH]; simpl; auto.
  intros [Hm Hms]%andb_prop. rewrite check_app, (check_registered _ _ Hm).
  auto.
Qed.

(** ** The helpers of the event methods *)

Lemma effect_comprehension cor_ids h :
  effect (comprehension requests_getitem cor_ids) h []
         (match check (requests h) cor_ids with
          | Ok _ => Ok (owners (requests h) cor_ids)
          | Raise e => Raise e
          end).
Proof.
  induction cor_ids as [|c cs IH].
  - apply effect_ret.
  - destruct IH as (Hr & Hq & Hs).
    unfold effect, owners. cbn [comprehension check flat_map].
    unfold bind at 1 3 5, requests_getitem at 1 3 5.
    destruct (Dict.get c (requests h)) as [r|] eqn:Hget.
    + unfold bind.
      destruct (comprehension requests_getitem cs h) as [h1 [rs|e]];
        simpl in *; destruct (check (requests h) cs);
        try discriminate; auto.
      injection Hr as ->. auto.
    + simpl. rewrite app_nil_r. auto using quiet_refl.
Qed.

Lemma effect_close_requests rs h :
  effect (_close_requests rs) h (map sentinel_for rs) (Ok tt).
Proof.
  unfold _close_requests. revert h.
  induction rs as [|r rs IH]; intros h; simpl.
  - apply effect_ret.
  - eapply effect_bind_cons; [apply effect_send_queue_message | apply IH].
Qed.

(** Looking all ids up and closing what they name: the core of
    [_is_error_msg] and the body of the second loop of
    [_response_handler]. *)
Lemma effect_lookup_close cor_ids h :
  effect (requests <- comprehension requests_getitem cor_ids ;;
          _close_requests requests) h
         (match check (requests h) cor_ids with
          | Ok _ => map sentinel_for (owners (requests h) cor_ids)
          | Raise _ => []
          end)
         (check (requests h) cor_ids).
Proof.
  pose proof (effect_comprehension cor_ids h) as Hc.
  destruct (check (requests h) cor_ids) as [[]|e].
  - eapply effect_bind_nil; [exact Hc | apply effect_close_requests].
  - now apply effect_bind_raise.
Qed.

Lemma effect_bind_end {A B} (m : M A) (k : A -> M B) h a dq res :
  effect m h dq (Ok a) ->
  effect (k a) (fst (m h)) [] res ->
  effect (bind m k) h dq res.
Proof.
  intros Hm Hk. rewrite <- (app_nil_r dq). apply (effect_bind _ _ _ _ _ _ _ Hm Hk).
Qed.

(** ** Loops over the messages and their correlation ids

    A loop whose body looks correlation ids up goes through as long as the
    ids are found.  [P x] holds of whatever the body pushes for [x], also
    when it raises; [exact d x] is what it pushes when it does not. *)
Section ForEach.
Context {A : Type} (body : A -> M unit)
        (ids : A -> list CorrelationId)
        (P : A -> nat * option Message -> Prop)
        (exact : Dict.t CorrelationId ReferenceDataRequest -> A ->
                 list (nat * option Message)).

Definition body_spec (x : A) (h : Handler) dq : Prop :=
  effect (body x) h dq (check (requests h) (ids x)) /\
  Forall (P x) dq /\
  (check (requests h) (ids x) = Ok tt -> dq = exact (requests h) x).

Definition loop_spec (l : list A) (h : Handler) dq : Prop :=
  effect (for_each body l) h dq (check (requests h) (flat_map ids l)) /\
  Forall (fun p => exists x, In x l /\ P x p) dq /\
  (check (requests h) (flat_map ids l) = Ok tt ->
   dq = flat_map (exact (requests h)) l).

Hypothesis body_ok : forall x h, exists dq, body_spec x h dq.

Lemma effect_for_each l : forall h, exists dq, loop_spec l h dq.
Proof.
  induction l as [|x l IH]; intros h.
  - exists []. split; [apply effect_ret|]. split; auto.
  - destruct (body_ok x h) as (dq1 & E1 & F1 & X1).
    unfold loop_spec. cbn [for_each flat_map]. rewrite check_app.
    destruct (check (requests h) (ids x)) as [[]|e] eqn:Hc.
    + destruct (IH (fst (body x h))) as (dq2 & E2 & F2 & X2).
      rewrite (effect_requests _ _ _ _ E1) in E2, X2.
      exists (dq1 ++ dq2). split; [|split].
      * eapply effect_bind; eauto.
      * apply Forall_app. split.
        -- eapply Forall_impl; [|exact F1]. simpl. eauto.
        -- eapply Forall_impl; [|exact F2].
           intros p (y & Hy & Hp). simpl. eauto.
      * intros Hok. now rewrite X1, X2.
    + exists dq1. split; [|split].
      * now apply effect_bind_raise.
      * eapply Forall_impl; [|exact F1]. simpl. eauto.
      * discriminate.
Qed.
End ForEach.

Lemma flat_map_singleton {A} (l : list A) : flat_map (fun x => [x]) l = l.
Proof. induction l; simpl; congruence. Qed.

Lemma flat_map_map {A B C} (f : A -> list B) (g : B -> C) l :
  flat_map (fun x => map g (f x)) l = map g (flat_map f l).
Proof.
  induction l as [|x l IH]; simpl; auto. now rewrite IH, map_app.
Qed.

Lemma owners_singletons d cor_ids :
  flat_map (fun c => owners d [c]) cor_ids = owners d cor_ids.
Proof.
  unfold owners. induction cor_ids as [|c cs IH]; simpl in *; auto.
  now rewrite app_nil_r, IH.
Qed.

(** [_is_error_msg] closes what the message names if it has the marker,
    and does nothing if it has not. *)
Lemma effect_is_error_msg msg h :
  effect (_is_error_msg msg) h
    (if is_error msg then
       match check (requests h) (correlationIds msg) with
       | Ok _ => map sentinel_for (owners (requests h) (correlationIds msg))
       | Raise _ => []
       end
     else [])
    (if is_error msg then
       match check (requests h) (correlationIds msg) with
       | Ok _ => Ok true
       | Raise e => Raise e
       end
     else Ok false).
Proof.
  unfold _is_error_msg, is_error.
  destruct (hasElement msg RESPONSE_ERROR); [|apply effect_ret].
  pose proof (effect_comprehension (correlationIds msg) h) as Hc.
  destruct (check (requests h) (correlationIds msg)) as [[]|e].
  - eapply effect_bind_nil; [exact Hc|].
    eapply effect_bind_end; [apply effect_close_requests|].
    eapply effect_bind_nil; [apply effect_LOGGER_debug | apply effect_ret].
  - now apply effect_bind_raise.
Qed.

(** The inner loop of [_partial_handler]. *)
Lemma effect_forward msg cor_ids h :
  exists dq,
    effect (for_each (fun cor_id =>
                        request <- requests_getitem cor_id ;;
                        send_queue_message request (Some msg)) cor_ids)
           h dq (check (requests h) cor_ids) /\
    Forall (fun p => snd p = Some msg) dq /\
    (check (requests h) cor_ids = Ok tt ->
     dq = map (fun r => (request_id r, Some msg)) (owners (requests h) cor_ids)).
Proof.
  destruct (effect_for_each
              (fun cor_id => request <- requests_getitem cor_id ;;
                             send_queue_message request (Some msg))
              (fun c => [c])
              (fun _ p => snd p = Some msg)
              (fun d c => map (fun r => (request_id r, Some msg)) (owners d [c])))
    with (l := cor_ids) (h := h) as (dq & E & F & X).
  - clear. intros c h. unfold body_spec, owners. simpl.
    unfold requests_getitem.
    destruct (Dict.get c (requests h)) as [r|] eqn:Hget.
    + exists [(request_id r, Some msg)]. split; [|split]; auto.
      eapply effect_bind_nil with (a := r).
      * unfold effect. rewrite Hget. simpl. rewrite app_nil_r.
        auto using quiet_refl.
      * rewrite Hget. apply effect_send_queue_message.
    + exists []. split; [|split; [constructor | discriminate]].
      apply effect_bind_raise. unfold effect. rewrite Hget. simpl.
      rewrite app_nil_r. auto using quiet_refl.
  - rewrite flat_map_singleton in *. exists dq. split; [|split]; auto.
    + eapply Forall_impl; [|exact F]. now intros p (_ & _ & Hp).
    + intros Hok. rewrite (X Hok). unfold owners.
      rewrite (flat_map_map _ (fun r => (request_id r, Some msg))).
      f_equal. apply owners_singletons.
Qed.

(** ** The event methods *)

Lemma partial_handler_msg_spec msg h :
  exists dq,
    body_spec _partial_handler_msg correlationIds item_of forwarding msg h dq.
Proof.
  unfold body_spec, _partial_handler_msg, item_of, forwarding.
  pose proof (effect_is_error_msg msg h) as He.
  destruct (is_error msg) eqn:Herr.
  - destruct (check (requests h) (correlationIds msg)) as [[]|e].
    + eexists. split; [|split].
      * eapply effect_bind_end; [exact He | apply effect_ret].
      * apply Forall_forall. intros p (r & <- & _)%in_map_iff. reflexivity.
      * reflexivity.
    + exists []. split; [|split; [constructor | discriminate]].
      now apply effect_bind_raise.
  - destruct (effect_forward msg (correlationIds msg)
                (fst (_is_error_msg msg h))) as (dq & E & F & X).
    rewrite (effect_requests _ _ _ _ He) in E, X.
    exists dq. split; [|split]; auto.
    eapply effect_bind_nil; [exact He | exact E].
Qed.

Lemma partial_handler_spec event_ h :
  exists dq,
    effect (_partial_handler event_) h dq
           (check (requests h) (flat_map correlationIds (messages event_))) /\
    Forall (item_from (messages event_)) dq /\
    (check (requests h) (flat_map correlationIds (messages event_)) = Ok tt ->
     dq = flat_map (forwarding (requests h)) (messages event_)).
Proof.
  exact (effect_for_each _ _ _ _ partial_handler_msg_spec (messages event_) h).
Qed.

(** The second loop of [_response_handler]. *)
Lemma closing_loop_spec msgs h :
  exists dq,
    effect (for_each (fun msg =>
                        requests <- comprehension requests_getitem
                                      (correlationIds msg) ;;
                        _close_requests requests) msgs)
           h dq (check (requests h) (flat_map correlationIds msgs)) /\
    Forall (fun p => snd p = None) dq /\
    (check (requests h) (flat_map correlationIds msgs) = Ok tt ->
     dq = flat_map (closing (requests h)) msgs).
Proof.
  destruct (effect_for_each
              (fun msg => requests <- comprehension requests_getitem
                                        (correlationIds msg) ;;
                          _close_requests requests)
              correlationIds (fun _ p => snd p = None) closing)
    with (l := msgs) (h := h) as (dq & E & F & X).
  - clear. intros msg h. unfold body_spec, closing.
    pose proof (effect_lookup_close (correlationIds msg) h) as Hc.
    destruct (check (requests h) (correlationIds msg)) as [[]|e];
      eexists; (split; [exact Hc|]); split;
      try discriminate; try constructor; auto.
    apply Forall_forall. intros p (r & <- & _)%in_map_iff. reflexivity.
  - exists dq. split; [|split]; auto.
    eapply Forall_impl; [|exact F]. now intros p (_ & _ & Hp).
Qed.

Lemma response_handler_spec event_ h :
  exists dq,
    effect (_response_handler event_) h dq
           (check (requests h) (flat_map correlationIds (messages event_))) /\
    Forall (fun p => item_from (messages event_) p \/ snd p = None) dq /\
    (check (requests h) (flat_map correlationIds (messages event_)) = Ok tt ->
     dq = flat_map (forwarding (requests h)) (messages event_) ++
          flat_map (closing (requests h)) (messages event_)).
Proof.
  unfold _response_handler.
  destruct (partial_handler_spec event_ h) as (dq1 & E1 & F1 & X1).
  destruct (check (requests h) (flat_map correlationIds (messages event_)))
    as [[]|e] eqn:Hc.
  - destruct (closing_loop_spec (messages event_)
                (fst (_partial_handler event_ h))) as (dq2 & E2 & F2 & X2).
    rewrite (effect_requests _ _ _ _ E1), Hc in E2, X2.
    exists (dq1 ++ dq2). split; [|split].
    + eapply effect_bind; eauto.
    + apply Forall_app. split; (eapply Forall_impl; [|eassumption]);
        simpl; auto.
    + intros _. now rewrite X1, X2.
  - exists dq1. split; [|split; [|discriminate]].
    + now apply effect_bind_raise.
    + eapply Forall_impl; [|exact F1]. simpl; auto.
Qed.

(** The status methods touch no queue. *)
Lemma effect_for_each_silent {A} (body : A -> M unit) l :
  (forall x h, effect (body x) h [] (Ok tt)) ->
  forall h, effect (for_each body l) h [] (Ok tt).
Proof.
  intros Hb. induction l as [|x l IH]; intros h; simpl.
  - apply effect_ret.
  - eapply effect_bind_nil; [apply Hb | apply IH].
Qed.

Lemma session_handler_spec event_ h :
  exists res, effect (_session_handler event_) h [] res.
Proof.
  unfold _session_handler, first_message.
  destruct (messages event_) as [|msg msgs].
  - eexists. apply effect_bind_raise, effect_raise.
  - exists (Ok tt). eapply effect_bind_nil; [apply effect_ret|].
    eapply effect_bind_nil with (a := tt).
    + destruct (name msg =? "SessionStarted")%string; [|apply effect_ret].
      eapply effect_bind_nil;
        [apply effect_LOGGER_debug | apply effect_call_soon_threadsafe].
    + destruct (name msg =? "SessionStopped")%string; [|apply effect_ret].
      eapply effect_bind_nil;
        [apply effect_LOGGER_debug | apply effect_call_soon_threadsafe].
Qed.

Lemma service_handler_spec event_ h :
  exists res, effect (_service_handler event_) h [] res.
Proof.
  unfold _service_handler, first_message.
  destruct (messages event_) as [|msg msgs].
  - eexists. apply effect_bind_raise, effect_raise.
  - exists (Ok tt). eapply effect_bind_nil; [apply effect_ret|].
    destruct (name msg =? "ServiceOpened")%string; [|apply effect_ret].
    eapply effect_bind_nil; [apply effect_gets|].
    apply effect_for_each_silent. intros item h'.
    eapply effect_bind_nil;
      [apply effect_LOGGER_debug | apply effect_call_soon_threadsafe].
Qed.

(** ** The entry point *)

Lemma effect_call_known event h method dq res :
  Dict.get (eventType event) method_map = Some method ->
  effect (invoke method event)
         (fst (LOGGER_debug (log_event_received (eventType event)) h)) dq res ->
  effect (__call__ event) h dq res.
Proof.
  intros Hm Hi. unfold __call__.
  eapply effect_bind_nil; [apply effect_LOGGER_debug|].
  unfold method_map_getitem. rewrite Hm.
  eapply effect_bind_nil; [apply effect_ret | exact Hi].
Qed.

Lemma effect_call_unknown event h :
  Dict.get (eventType event) method_map = None ->
  effect (__call__ event) h []
         (Raise (KeyError (key_event_type (eventType event)))).
Proof.
  intros Hm. unfold __call__.
  eapply effect_bind_nil; [apply effect_LOGGER_debug|].
  unfold method_map_getitem. rewrite Hm.
  apply effect_bind_raise, effect_raise.
Qed.

Lemma call_response_spec event h :
  eventType event = RESPONSE ->
  exists dq,
    effect (__call__ event) h dq
           (check (requests h) (flat_map correlationIds (messages event))) /\
    Forall (fun p => item_from (messages event) p \/ snd p = None) dq /\
    (check (requests h) (flat_map correlationIds (messages event)) = Ok tt ->
     dq = flat_map (forwarding (requests h)) (messages event) ++
          flat_map (closing (requests h)) (messages event)).
Proof.
  intros Ht.
  destruct (response_handler_spec event
              (fst (LOGGER_debug (log_event_received (eventType event)) h)))
    as (dq & E & F & X).
  exists dq. split; [|split]; auto.
  apply effect_call_known with (method := response_handler_method); auto.
  now rewrite Ht.
Qed.

Lemma call_partial_spec event h :
  eventType event = PARTIAL_RESPONSE ->
  exists dq,
    effect (__call__ event) h dq
           (check (requests h) (flat_map correlationIds (messages event))) /\
    Forall (item_from (messages event)) dq /\
    (check (requests h) (flat_map correlationIds (messages event)) = Ok tt ->
     dq = flat_map (forwarding (requests h)) (messages event)).
Proof.
  intros Ht.
  destruct (partial_handler_spec event
              (fst (LOGGER_debug (log_event_received (eventType event)) h)))
    as (dq & E & F & X).
  exists dq. split; [|split]; auto.
  apply effect_call_known with (method := partial_handler_method); auto.
  now rewrite Ht.
Qed.

(** Whatever the event, [__call__] is quiet, and what it pushes is an item
    of one of the messages or, for a [RESPONSE], a sentinel. *)
Lemma call_spec event h :
  exists dq res,
    effect (__call__ event) h dq res /\
    Forall (fun p => item_from (messages event) p \/
                     (eventType event = RESPONSE /\ snd p = None)) dq.
Proof.
  destruct (eventType event) eqn:Ht;
    try (exists [], (Raise (KeyError (key_event_type (eventType event))));
         split; [apply effect_call_unknown; now rewrite Ht | constructor]).
  - destruct (session_handler_spec event
                (fst (LOGGER_debug (log_event_received (eventType event)) h)))
      as (res & E).
    exists [], res. split; [|constructor].
    apply effect_call_known with (method := session_handler_method); auto.
    now rewrite Ht.
  - destruct (call_response_spec event h Ht) as (dq & E & F & _).
    exists dq; eexists. split; [exact E|].
    eapply Forall_impl; [|exact F]. simpl. intuition.
  - destruct (call_partial_spec event h Ht) as (dq & E & F & _).
    exists dq; eexists. split; [exact E|].
    eapply Forall_impl; [|exact F]. simpl. intuition.
  - destruct (service_handler_spec event
                (fst (LOGGER_debug (log_event_received (eventType event)) h)))
      as (res & E).
    exists [], res. split; [|constructor].
    apply effect_call_known with (method := service_handler_method); auto.
    now rewrite Ht.
Qed.

Lemma stop_session_spec h :
  effect stop_session h (map sentinel_for (Dict.values (requests h))) (Ok tt).
Proof.
  unfold stop_session.
  eapply effect_bind_nil; [apply effect_gets|].
  eapply effect_bind_end; [apply effect_close_requests | apply effect_stopAsync].
Qed.

(** ** Channels *)

Definition pushed_to (r : nat) (dq : list (nat * option Message))
  : list (option Message) :=
  map snd (filter (fun p => Nat.eqb (fst p) r) dq).

Lemma channel_app r h h' dq :
  queues h' = queues h ++ dq -> channel r h' = channel r h ++ pushed_to r dq.
Proof.
  intros Hq. unfold channel, pushed_to. now rewrite Hq, filter_app, map_app.
Qed.

Lemma pushed_to_app r a b : pushed_to r (a ++ b) = pushed_to r a ++ pushed_to r b.
Proof. unfold pushed_to. now rewrite filter_app, map_app. Qed.

Lemma pushed_to_flat_map {A} r (f : A -> list (nat * option Message)) l :
  pushed_to r (flat_map f l) = flat_map (fun x => pushed_to r (f x)) l.
Proof.
  induction l as [|x l IH]; simpl; auto. now rewrite pushed_to_app, IH.
Qed.

Lemma pushed_to_const r item (rs : list ReferenceDataRequest) :
  pushed_to r (map (fun q => (request_id q, item)) rs) =
  repeat item (List.length (filter (fun q => Nat.eqb (request_id q) r) rs)).
Proof.
  unfold pushed_to. induction rs as [|q rs IH]; simpl; auto.
  destruct (Nat.eqb (request_id q) r); simpl; now rewrite IH.
Qed.

Lemma sentinels_app r h h' dq :
  queues h' = queues h ++ dq ->
  sentinels r h' =
  sentinels r h + List.length (filter is_sentinel (pushed_to r dq)).
Proof.
  intros Hq. unfold sentinels.
  now rewrite (channel_app r _ _ _ Hq), filter_app, length_app.
Qed.

(** ** What a request sees of a [RESPONSE] event *)

(** How often the correlation ids of [msg] name the request [r]. *)
Definition mentions (d : Dict.t CorrelationId ReferenceDataRequest) (r : nat)
    (msg : Message) : nat :=
  List.length (filter (fun q => Nat.eqb (request_id q) r)
                      (owners d (correlationIds msg))).

(** How often the correlation ids of the messages name [r]. *)
Definition references (d : Dict.t CorrelationId ReferenceDataRequest) (r : nat)
    (msgs : list Message) : nat :=
  list_sum (map (mentions d r) msgs).

(** The payload messages for [r]: the messages without the error marker,
    in the order of the event, each as often as it names [r]. *)
Definition payloads (d : Dict.t CorrelationId ReferenceDataRequest) (r : nat)
    (msgs : list Message) : list Message :=
  flat_map (fun msg => if is_error msg then []
                       else repeat msg (mentions d r msg)) msgs.

(** What the first loop hands to [r]: its payload messages, and a sentinel
    where a message that names [r] has the error marker. *)
Definition forwarded (d : Dict.t CorrelationId ReferenceDataRequest) (r : nat)
    (msgs : list Message) : list (option Message) :=
  flat_map (fun msg => repeat (if is_error msg then None else Some msg)
                              (mentions d r msg)) msgs.

Definition is_payload (item : option Message) : bool :=
  negb (is_sentinel item).

Lemma pushed_to_forwarding d r msgs :
  pushed_to r (flat_map (forwarding d) msgs) = forwarded d r msgs.
Proof.
  rewrite pushed_to_flat_map. apply flat_map_ext. intros msg.
  apply pushed_to_const.
Qed.

Lemma pushed_to_closing d r msgs :
  pushed_to r (flat_map (closing d) msgs) = repeat None (references d r msgs).
Proof.
  rewrite pushed_to_flat_map. unfold references.
  induction msgs as [|msg msgs IH]; simpl; auto.
  rewrite repeat_app, IH. f_equal. apply (pushed_to_const r None).
Qed.

Lemma mentions_positive d r msg c request :
  In c (correlationIds msg) -> Dict.get c d = Some request ->
  request_id request = r -> 1 <= mentions d r msg.
Proof.
  intros Hin Hget Hr. unfold mentions.
  assert (Hq : In request
                 (filter (fun q => Nat.eqb (request_id q) r)
                         (owners d (correlationIds msg)))).
  { apply filter_In. split.
    - unfold owners. apply in_flat_map. exists c. split; auto.
      rewrite Hget. now left.
    - now apply Nat.eqb_eq. }
  destruct (filter _ _); [contradiction | simpl; lia].
Qed.

Lemma references_positive d r msgs msg :
  In msg msgs -> 1 <= mentions d r msg -> 1 <= references d r msgs.
Proof.
  unfold references. induction msgs as [|m msgs IH]; simpl; [contradiction|].
  intros [->|Hin] Hm; [lia|]. specialize (IH Hin Hm). lia.
Qed.

Lemma filter_repeat {A} (f : A -> bool) x n :
  filter f (repeat x n) = if f x then repeat x n else [].
Proof.
  induction n as [|n IH]; simpl; [now destruct (f x)|].
  rewrite IH. now destruct (f x).
Qed.

Lemma forwarded_payloads d r msgs :
  filter is_payload (forwarded d r msgs) = map Some (payloads d r msgs).
Proof.
  unfold forwarded, payloads.
  induction msgs as [|msg msgs IH]; simpl; auto.
  rewrite filter_app, map_app, IH, filter_repeat. f_equal.
  destruct (is_error msg); simpl; auto.
  induction (mentions d r msg); simpl; congruence.
Qed.

(** ** A session to try things on

    One request for the service [//blp/refdata], submitted through
    [send_requests] with the correlation id [7], after the session has
    started and the service has opened. *)
Module Scenario.

Definition options : SessionOptions :=
  {| serverHost := "localhost"; serverPort := 8194%N |}.

Definition R1 : ReferenceDataRequest :=
  {| request_id := 1; service_name := "//blp/refdata" |}.

Definition C1 : CorrelationId := 7%N.

Definition uuid4 (n : nat) : CorrelationId := (7 + N.of_nat n)%N.

Definition status (element : string) : Message :=
  {| name := element; elements := []; correlationIds := [] |}.

Definition SessionStarted : Event :=
  {| eventType := SESSION_STATUS; messages := [status "SessionStarted"] |}.

Definition ServiceOpened : Event :=
  {| eventType := SERVICE_STATUS; messages := [status "ServiceOpened"] |}.

Definition submission : list Action :=
  [ call_send_requests [R1]; event_arrives SessionStarted;
    loop_runs_callback; task_runs 0; task_runs 0; task_runs 0;
    event_arrives ServiceOpened; loop_runs_callback;
    task_runs 0; task_runs 0; task_runs 0; task_runs 0 ].

(** The handler once [R1] is on its way. *)
Definition submitted : Handler :=
  handler (run uuid4 submission (start options)).

Definition data (field : string) (cor_ids : list CorrelationId) : Message :=
  {| name := "ReferenceDataResponse"; elements := ["securityData"; field];
     correlationIds := cor_ids |}.

Definition failure (cor_ids : list CorrelationId) : Message :=
  {| name := "ReferenceDataResponse"; elements := [RESPONSE_ERROR];
     correlationIds := cor_ids |}.

Definition msg1 : Message := data "PX_LAST" [C1].
Definition msg2 : Message := data "PX_OPEN" [C1].

End Scenario.

Example submitted_table :
  requests Scenario.submitted = [(Scenario.C1, Scenario.R1)] /\
  session Scenario.submitted =
    [ Session_new Scenario.options; startAsync;
      openServiceAsync "//blp/refdata"; getService "//blp/refdata";
      sendRequest Scenario.R1 Scenario.C1 ] /\
  queues Scenario.submitted = [].
Proof. repeat split. Qed.

(** * The claims *)

(** ** C1: a [RESPONSE] event closes what it references *)

(** C1, as the code has it.  When a [RESPONSE] event is processed and all
    its correlation ids are registered, the request registered under a
    correlation id [C] of the event receives what the first loop forwards to
    it, its payload messages in the order of the event among it, and after
    that one terminal sentinel for every time a correlation id of a message
    of the event names it: at least one, also when there is no payload for
    it, and more than one when it is named more than once. *)
Theorem response_closes_every_reference
    (event : Event) (h : Handler) (msg : Message) (C : CorrelationId)
    (request : ReferenceDataRequest) :
  eventType event = RESPONSE ->
  all_registered (requests h) (messages event) = true ->
  In msg (messages event) ->
  In C (correlationIds msg) ->
  Dict.get C (requests h) = Some request ->
  let r := request_id request in
  let d := requests h in
  snd (__call__ event h) = Ok tt /\
  channel r (fst (__call__ event h)) =
    channel r h ++ forwarded d r (messages event)
                ++ repeat None (references d r (messages event)) /\
  filter is_payload (forwarded d r (messages event)) =
    map Some (payloads d r (messages event)) /\
  1 <= references d r (messages event).
Proof.
  intros Ht Hreg Hin HinC Hget r d.
  destruct (call_response_spec event h Ht) as (dq & (Hres & Hq & _) & _ & X).
  rewrite (check_all_registered _ _ Hreg) in Hres, X.
  specialize (X eq_refl). subst dq.
  split; [exact Hres|]. split; [|split].
  - rewrite (channel_app r _ _ _ Hq), pushed_to_app.
    now rewrite pushed_to_forwarding, pushed_to_closing.
  - apply forwarded_payloads.
  - apply references_positive with (msg := msg); auto.
    now apply mentions_positive with (c := C) (request := request).
Qed.

Lemma response_closes_every_reference_witness :
  snd (__call__ {| eventType := RESPONSE; messages := [Scenario.msg1] |}
                Scenario.submitted) = Ok tt /\
  channel 1 (fst (__call__ {| eventType := RESPONSE;
                              messages := [Scenario.msg1] |}
                           Scenario.submitted)) =
    [Some Scenario.msg1; None].
Proof.
  destruct (response_closes_every_reference
              {| eventType := RESPONSE; messages := [Scenario.msg1] |}
              Scenario.submitted Scenario.msg1 Scenario.C1 Scenario.R1)
    as (Hres & Hch & _ & _).
  - reflexivity.
  - reflexivity.
  - simpl. auto.
  - simpl. auto.
  - reflexivity.
  - split; [exact Hres | exact Hch].
Defined.

(** C1 as the spec states it fails on its own scenario: a [RESPONSE] event
    with two messages tagged with the same correlation id, neither with the
    error marker, delivers both messages and then the sentinel twice. *)
Lemma response_two_messages_two_sentinels :
  let event := {| eventType := RESPONSE;
                  messages := [Scenario.msg1; Scenario.msg2] |} in
  all_registered (requests Scenario.submitted) (messages event) = true /\
  channel 1 (fst (__call__ event Scenario.submitted)) =
    [Some Scenario.msg1; Some Scenario.msg2; None; None] /\
  sentinels 1 (fst (__call__ event Scenario.submitted)) <> 1.
Proof. repeat split. discriminate. Qed.

(** ** C3: [PARTIAL_RESPONSE] events and the sentinel *)

(** C3, as the code has it.  An event that is not a [RESPONSE], a
    [PARTIAL_RESPONSE] above all, and none of whose messages has the error
    marker pushes no terminal sentinel onto any queue, whether its
    correlation ids are registered or not. *)
Theorem partial_without_error_pushes_no_sentinel
    (event : Event) (h : Handler) (r : nat) :
  eventType event <> RESPONSE ->
  forallb (fun msg => negb (is_error msg)) (messages event) = true ->
  sentinels r (fst (__call__ event h)) = sentinels r h.
Proof.
  intros Ht Hne.
  destruct (call_spec event h) as (dq & res & (_ & Hq & _) & F).
  rewrite (sentinels_app r _ _ _ Hq).
  assert (Hnone : filter is_sentinel (pushed_to r dq) = []).
  { clear Hq. unfold pushed_to.
    induction F as [|p dq Hp F IH]; simpl; auto.
    destruct (Nat.eqb (fst p) r); simpl; auto.
    destruct Hp as [(msg & Hin & Hp)|[Hr _]]; [|contradiction].
    rewrite forallb_forall in Hne. specialize (Hne msg Hin).
    red in Hp. rewrite Hp. destruct (is_error msg); [discriminate|].
    simpl. exact IH. }
  rewrite Hnone. simpl. lia.
Qed.

Lemma partial_without_error_pushes_no_sentinel_witness :
  sentinels 1 (fst (__call__ {| eventType := PARTIAL_RESPONSE;
                                messages := [Scenario.msg1] |}
                             Scenario.submitted)) =
  sentinels 1 Scenario.submitted.
Proof.
  apply (partial_without_error_pushes_no_sentinel
           {| eventType := PARTIAL_RESPONSE; messages := [Scenario.msg1] |}
           Scenario.submitted 1).
  - simpl. discriminate.
  - reflexivity.
Defined.

(** C3 as the spec states it fails: a [PARTIAL_RESPONSE] event whose
    message has the error marker pushes the sentinel. *)
Lemma partial_with_error_pushes_sentinel :
  let event := {| eventType := PARTIAL_RESPONSE;
                  messages := [Scenario.failure [Scenario.C1]] |} in
  channel 1 Scenario.submitted = [] /\
  channel 1 (fst (__call__ event Scenario.submitted)) = [None].
Proof. split; reflexivity. Qed.

(** ** C4: messages with the error marker *)

(** What a computation adds to the record of the pushes. *)
Definition pushed {A} (m : M A) (h : Handler) : list (nat * option Message) :=
  skipn (List.length (queues h)) (queues (fst (m h))).

Lemma effect_pushed {A} (m : M A) h dq res :
  effect m h dq res -> pushed m h = dq.
Proof.
  intros (_ & Hq & _). unfold pushed. rewrite Hq.
  rewrite skipn_app, skipn_all, Nat.sub_diag. reflexivity.
Qed.

(** C4, as the code has it.  Processing a message that has the
    response-error marker and whose correlation ids are all registered
    pushes the terminal sentinel, and nothing else, onto the queue of every
    request that the correlation ids name; and no event, in no state of the
    handler, makes [__call__] push such a message itself onto a queue. *)
Theorem error_message_closes_without_forwarding (msg : Message) (h : Handler) :
  is_error msg = true ->
  registered (requests h) (correlationIds msg) = true ->
  snd (_partial_handler_msg msg h) = Ok tt /\
  pushed (_partial_handler_msg msg) h =
    map sentinel_for (owners (requests h) (correlationIds msg)) /\
  (forall c, In c (correlationIds msg) ->
     exists request, Dict.get c (requests h) = Some request /\
       In (request_id request, None) (pushed (_partial_handler_msg msg) h)) /\
  (forall event h0 r, ~ In (r, Some msg) (pushed (__call__ event) h0)).
Proof.
  intros Herr Hreg.
  destruct (partial_handler_msg_spec msg h) as (dq & E & _ & X).
  rewrite (check_registered _ _ Hreg) in E, X. specialize (X eq_refl).
  rewrite (effect_pushed _ _ _ _ E). subst dq.
  unfold forwarding. rewrite Herr.
  split; [apply E|]. split; [reflexivity|]. split.
  - intros c Hc. unfold registered in Hreg. rewrite forallb_forall in Hreg.
    destruct (proj1 (mem_get c (requests h)) (Hreg c Hc)) as [request Hget].
    exists request. split; [exact Hget|].
    apply in_map_iff. exists request. split; [reflexivity|].
    unfold owners. apply in_flat_map. exists c. split; [exact Hc|].
    rewrite Hget. now left.
  - intros event h0 r Hin.
    destruct (call_spec event h0) as (dq & res & E0 & F).
    rewrite (effect_pushed _ _ _ _ E0) in Hin.
    rewrite Forall_forall in F.
    destruct (F _ Hin) as [(m & _ & Hm)|[_ Hm]]; [|discriminate].
    red in Hm. simpl in Hm. destruct (is_error m) eqn:He; [discriminate|].
    injection Hm as <-. congruence.
Qed.

Lemma error_message_closes_without_forwarding_witness :
  snd (_partial_handler_msg (Scenario.failure [Scenario.C1])
                            Scenario.submitted) = Ok tt /\
  pushed (_partial_handler_msg (Scenario.failure [Scenario.C1]))
         Scenario.submitted = [(1, None)].
Proof.
  destruct (error_message_closes_without_forwarding
              (Scenario.failure [Scenario.C1]) Scenario.submitted)
    as (Hres & Hp & _).
  - reflexivity.
  - reflexivity.
  - split; [exact Hres | exact Hp].
Defined.

(** C4 as the spec states it fails when one correlation id of the
    message is not in the table: [_is_error_msg] looks all ids up before it
    closes anything, so the [KeyError] of the missing id leaves the request
    that the other id names without its sentinel. *)
Lemma error_message_with_unknown_id_closes_nothing :
  let msg := Scenario.failure [Scenario.C1; 9%N] in
  let event := {| eventType := PARTIAL_RESPONSE; messages := [msg] |} in
  is_error msg = true /\
  Dict.get Scenario.C1 (requests Scenario.submitted) = Some Scenario.R1 /\
  snd (_partial_handler_msg msg Scenario.submitted)
  = Raise (KeyError (key_correlation_id 9%N)) /\
  pushed (_partial_handler_msg msg) Scenario.submitted = [] /\
  snd (__call__ event Scenario.submitted)
  = Raise (KeyError (key_correlation_id 9%N)) /\
  channel 1 (fst (__call__ event Scenario.submitted)) = [].
Proof. repeat split. Qed.

(** ** C5: a correlation id that is not in the table *)

(** C5, as the code has it.  When a [RESPONSE] or [PARTIAL_RESPONSE] event
    has a correlation id that is not in the table, [__call__] raises the
    [KeyError] of the lookup to its caller, and all that the handler has
    logged by then is at debug level. *)
Theorem unregistered_correlation_id_raises (event : Event) (h : Handler) :
  eventType event = RESPONSE \/ eventType event = PARTIAL_RESPONSE ->
  all_registered (requests h) (messages event) = false ->
  exists c,
    In c (flat_map correlationIds (messages event)) /\
    Dict.mem c (requests h) = false /\
    snd (__call__ event h) = Raise (KeyError (key_correlation_id c)) /\
    exists lines,
      logger (fst (__call__ event h)) = logger h ++ lines /\
      debug_only lines.
Proof.
  intros Ht Hreg.
  assert (Hraise : exists e,
             check (requests h) (flat_map correlationIds (messages event))
             = Raise e).
  { clear Ht. unfold all_registered in Hreg.
    induction (messages event) as [|msg msgs IH]; simpl in *; [discriminate|].
    rewrite check_app.
    destruct (registered (requests h) (correlationIds msg)) eqn:Hm.
    - rewrite (check_registered _ _ Hm). auto.
    - destruct (check_unregistered _ _ Hm) as [e ->]. eauto. }
  destruct Hraise as [e He].
  destruct (check_raises _ _ _ He) as (c & Hin & Hmem & ->).
  assert (E : exists dq, effect (__call__ event) h dq
                                (Raise (KeyError (key_correlation_id c)))).
  { destruct Ht as [Ht|Ht].
    - destruct (call_response_spec event h Ht) as (dq & E & _).
      rewrite He in E. eauto.
    - destruct (call_partial_spec event h Ht) as (dq & E & _).
      rewrite He in E. eauto. }
  destruct E as (dq & Hres & _ & Hquiet).
  exists c. repeat split; auto. apply Hquiet.
Qed.

Lemma unregistered_correlation_id_raises_witness :
  exists c,
    In c [9%N] /\
    Dict.mem c (requests Scenario.submitted) = false /\
    snd (__call__ {| eventType := PARTIAL_RESPONSE;
                     messages := [Scenario.data "PX_LAST" [9%N]] |}
                  Scenario.submitted)
    = Raise (KeyError (key_correlation_id c)) /\
    exists lines,
      logger (fst (__call__ {| eventType := PARTIAL_RESPONSE;
                               messages := [Scenario.data "PX_LAST" [9%N]] |}
                            Scenario.submitted))
      = logger Scenario.submitted ++ lines /\
      debug_only lines.
Proof.
  apply (unregistered_correlation_id_raises
           {| eventType := PARTIAL_RESPONSE;
              messages := [Scenario.data "PX_LAST" [9%N]] |}
           Scenario.submitted).
  - right. reflexivity.
  - reflexivity.
Defined.

(** C5 as the spec states it fails: the error leaves [__call__] as an
    exception, and the log has no line above debug level. *)
Lemma unregistered_correlation_id_escapes :
  let event := {| eventType := PARTIAL_RESPONSE;
                  messages := [Scenario.data "PX_LAST" [9%N]] |} in
  snd (__call__ event Scenario.submitted)
  = Raise (KeyError (key_correlation_id 9%N)) /\
  filter (fun line => match fst line with DEBUG => false | _ => true end)
         (logger (fst (__call__ event Scenario.submitted))) = [].
Proof. split; reflexivity. Qed.

(** ** C8 and C9: construction outside a running loop *)

(** C8.  Constructing the handler where no event loop is running fails in
    the constructor: [HandlerRef(session_options)] raises the
    [RuntimeError] that asks for an asyncio loop, the error the spec calls
    a configuration error, and does not return a handler; inside a running
    loop it returns. *)
Theorem construction_outside_loop_fails (session_options : SessionOptions) :
  snd (HandlerRef session_options false)
  = Raise (RuntimeError "Please create handler inside asyncio loop") /\
  snd (HandlerRef session_options true) = Ok tt.
Proof. split; reflexivity. Qed.

(** C9.  When the constructor raises for want of a running loop, the
    session has been created and [startAsync()] has been called on it:
    these two calls, in this order, are all the session has seen. *)
Theorem construction_failure_after_session_start
    (session_options : SessionOptions) :
  snd (HandlerRef session_options false)
  = Raise (RuntimeError "Please create handler inside asyncio loop") /\
  session (fst (HandlerRef session_options false))
  = [Session_new session_options; startAsync].
Proof. split; reflexivity. Qed.

(** ** C10: event types without a method *)

(** C10.  For an event whose type is none of [SESSION_STATUS],
    [SERVICE_STATUS], [RESPONSE] and [PARTIAL_RESPONSE], [__call__] logs
    the arrival and raises the [KeyError] of the lookup in [method_map],
    with the event type as the key; nothing else happens. *)
Theorem call_other_event_type_raises_KeyError (event : Event) (h : Handler) :
  eventType event <> SESSION_STATUS ->
  eventType event <> SERVICE_STATUS ->
  eventType event <> RESPONSE ->
  eventType event <> PARTIAL_RESPONSE ->
  __call__ event h =
  (set_logger (fun l => l ++ [(DEBUG, log_event_received (eventType event))]) h,
   Raise (KeyError (key_event_type (eventType event)))).
Proof.
  intros H1 H2 H3 H4. unfold __call__, bind, method_map_getitem; simpl.
  destruct (eventType event); try congruence; reflexivity.
Qed.

Lemma call_other_event_type_raises_KeyError_witness :
  snd (__call__ {| eventType := SUBSCRIPTION_DATA; messages := [] |}
                Scenario.submitted)
  = Raise (KeyError (key_event_type SUBSCRIPTION_DATA)).
Proof.
  rewrite (call_other_event_type_raises_KeyError
             {| eventType := SUBSCRIPTION_DATA; messages := [] |}
             Scenario.submitted); simpl; [reflexivity | discriminate ..].
Defined.

(** ** The coroutines, step by step *)

Lemma get_service_open_state service_name h :
  fst (_get_service_open service_name h) =
  let h1 := set_get_service_calls (fun l => l ++ [service_name]) h in
  if Dict.mem service_name (services h) then h1
  else set_session (fun l => l ++ [openServiceAsync service_name])
         (set_services (Dict.set service_name false) h1).
Proof.
  unfold _get_service_open, bind, gets, modify; simpl.
  destruct (Dict.mem service_name (services h)); reflexivity.
Qed.

Lemma task_step_enter uuid4 service_name caller h :
  task_step uuid4 (in_get_service gs_enter service_name caller) h =
  (fst (_get_service_open service_name h),
   in_get_service gs_wait service_name caller).
Proof.
  unfold task_step, task_body, bind.
  destruct (_get_service_open service_name h) as [h' [[]|e]] eqn:Ho;
    [reflexivity|].
  exfalso. revert Ho. unfold _get_service_open, bind, gets, modify; simpl.
  destruct (Dict.mem service_name (services h)); discriminate.
Qed.

Lemma task_step_wait uuid4 service_name caller h :
  fst (task_step uuid4 (in_get_service gs_wait service_name caller) h) = h.
Proof.
  unfold task_step, task_body, bind, services_getitem.
  destruct (Dict.get service_name (services h)); reflexivity.
Qed.

(** A task past the wait was let through by a set event. *)
Lemma task_step_wait_next uuid4 service_name caller h :
  snd (task_step uuid4 (in_get_service gs_wait service_name caller) h) =
  match Dict.get service_name (services h) with
  | Some true => in_get_service gs_return service_name caller
  | Some false => in_get_service gs_wait service_name caller
  | None => failed (KeyError (key_service service_name))
  end.
Proof.
  unfold task_step, task_body, bind, services_getitem.
  destruct (Dict.get service_name (services h)) as [[|]|]; reflexivity.
Qed.

(** ** Invariants of a handler at work *)

Section Invariants.
Variable uuid4 : nat -> CorrelationId.

Lemma run_invariant (I : System -> Prop) :
  (forall a s, I s -> I (step uuid4 a s)) ->
  forall actions s, I s -> I (run uuid4 actions s).
Proof.
  intros Hstep actions. unfold run.
  induction actions as [|a actions IH]; intros s Hs; simpl; auto.
Qed.

(** A property of the handler alone is kept by every action if a quiet
    computation, a callback and a step of a coroutine keep it. *)
Lemma step_handler_invariant (P : Handler -> Prop) :
  (forall h h', quiet h h' -> P h -> P h') ->
  (forall callback h, P h ->
     P (run_callback callback (set_loop (@tl Callback) h))) ->
  (forall t h, P h -> P (fst (task_step uuid4 t h))) ->
  forall a s, P (handler s) -> P (handler (step uuid4 a s)).
Proof.
  intros Hquiet Hcallback Htask a s Hs.
  destruct a as [event| |reqs|service_name| |i]; simpl; auto.
  - destruct (call_spec event (handler s)) as (dq & res & (_ & _ & Hq) & _).
    eauto.
  - destruct (loop (handler s)); simpl; auto.
  - destruct (stop_session_spec (handler s)) as (_ & _ & Hq). eauto.
  - destruct (nth_error (tasks s) i) as [t|]; auto.
    specialize (Htask t (handler s) Hs).
    destruct (task_step uuid4 t (handler s)). exact Htask.
Qed.

(** No action takes an entry out of the table. *)
Lemma step_keeps_registered cid a s :
  Dict.mem cid (requests (handler s)) = true ->
  Dict.mem cid (requests (handler (step uuid4 a s))) = true.
Proof.
  apply (step_handler_invariant
           (fun h => Dict.mem cid (requests h) = true)).
  - intros h h' Hq. now rewrite (quiet_requests _ _ Hq).
  - intros [| |service_name] h; auto.
  - intros t h Hm.
    destruct t as [reqs|[|r rest]|[| |] name caller|[[c r] rest]| |e];
      try rewrite task_step_enter; try rewrite task_step_wait;
      try rewrite get_service_open_state;
      unfold task_step; cbn; auto.
    + now apply mem_set_keeps.
    + destruct (Dict.mem name (services h)); auto.
Qed.

Lemma run_keeps_registered cid actions s :
  Dict.mem cid (requests (handler s)) = true ->
  Dict.mem cid (requests (handler (run uuid4 actions s))) = true.
Proof.
  apply (run_invariant
           (fun s => Dict.mem cid (requests (handler s)) = true)).
  intros a s'. apply step_keeps_registered.
Qed.

(** Only the session thread and [stop_session] push: the loop and the
    coroutines leave the queues alone. *)
Lemma step_queues a s :
  queues (handler (step uuid4 a s)) =
  queues (handler s) ++
  match a with
  | event_arrives event => pushed (__call__ event) (handler s)
  | call_stop_session => pushed stop_session (handler s)
  | _ => []
  end.
Proof.
  destruct a as [event| |reqs|service_name| |i]; simpl;
    try (now rewrite app_nil_r).
  - destruct (call_spec event (handler s)) as (dq & res & E & _).
    rewrite (effect_pushed _ _ _ _ E). apply E.
  - rewrite app_nil_r. destruct (loop (handler s)) as [|[| |n] l]; auto.
  - pose proof (stop_session_spec (handler s)) as E.
    rewrite (effect_pushed _ _ _ _ E). apply E.
  - rewrite app_nil_r. destruct (nth_error (tasks s) i) as [t|]; auto.
    destruct (task_step uuid4 t (handler s)) as [h' t'] eqn:Hstep.
    change h' with (fst (h', t')). rewrite <- Hstep. clear Hstep.
    destruct t as [reqs|[|r rest]|[| |] name caller|[[c r] rest]| |e];
      try rewrite task_step_enter; try rewrite task_step_wait;
      try rewrite get_service_open_state;
      unfold task_step; cbn; auto.
    destruct (Dict.mem name (services (handler s))); auto.
Qed.
End Invariants.

(** ** C2: the table and the sentinel over the life of a handler *)

(** C2 as the spec states it fails: after the [RESPONSE] event for its
    correlation id the request is still in the table, and [stop_session]
    pushes the sentinel onto its queue a second time. *)
Lemma closed_request_stays_and_is_closed_again :
  let response := {| eventType := RESPONSE; messages := [Scenario.msg1] |} in
  let s := run Scenario.uuid4 Scenario.submission (start Scenario.options) in
  let after_response := handler (run Scenario.uuid4 [event_arrives response] s) in
  let after_stop :=
    handler (run Scenario.uuid4 [event_arrives response; call_stop_session] s) in
  channel 1 after_response = [Some Scenario.msg1; None] /\
  Dict.get Scenario.C1 (requests after_response) = Some Scenario.R1 /\
  channel 1 after_stop = [Some Scenario.msg1; None; None] /\
  sentinels 1 after_stop = 2.
Proof. repeat split. Qed.

(** ** C6: one [openServiceAsync] for a service *)

Definition is_open (service_name : string) (c : SessionCall) : bool :=
  match c with
  | openServiceAsync n => String.eqb service_name n
  | _ => false
  end.

(** How often the session was asked to open the service. *)
Definition opens (service_name : string) (h : Handler) : nat :=
  List.length (filter (is_open service_name) (session h)).

(** How often [_get_service] was called with the name. *)
Definition get_service_count (service_name : string) (h : Handler) : nat :=
  List.length (filter (String.eqb service_name) (get_service_calls h)).

Definition opened_once (h : Handler) : Prop :=
  forall service_name,
    opens service_name h = Nat.min 1 (get_service_count service_name h) /\
    Dict.mem service_name (services h) =
      Nat.ltb 0 (get_service_count service_name h).

Lemma mem_service_set n n' d :
  Dict.mem n (service_set n' d) = Dict.mem n d.
Proof.
  unfold Dict.mem. induction d as [|[k v] d IH]; simpl; auto.
  destruct (String.eqb k n'); simpl; destruct (String.eqb n k); auto.
Qed.

Lemma opens_app service_name h h' calls :
  session h' = session h ++ calls ->
  opens service_name h' =
  opens service_name h + List.length (filter (is_open service_name) calls).
Proof.
  intros Hs. unfold opens. now rewrite Hs, filter_app, length_app.
Qed.

Lemma opened_once_task uuid4 t h :
  opened_once h -> opened_once (fst (task_step uuid4 t h)).
Proof.
  intros Hinv.
  destruct t as [reqs|[|r rest]|[| |] name caller|[[c r] rest]| |e];
    try rewrite task_step_enter; try rewrite task_step_wait;
    try rewrite get_service_open_state;
    unfold task_step; cbn; auto.
  - intros n. destruct (Hinv n) as [Ho Hm].
    unfold opens, get_service_count in *.
    destruct (Dict.mem name (services h)) eqn:Hname; cbn;
      rewrite ?filter_app, ?length_app; cbn;
      destruct (String.eqb_spec n name) as [->|Hne]; cbn;
      rewrite ?Nat.add_0_r, ?Nat.add_1_r; auto;
      try rewrite Hname in Hm;
      destruct (List.length (filter (String.eqb _) (get_service_calls h)));
      cbn in *; try discriminate; try (split; [lia | auto]);
      rewrite mem_set; cbn; rewrite ?String.eqb_refl; auto.
    + destruct (String.eqb_spec n name); [contradiction | auto].
    + destruct (String.eqb_spec n name); [contradiction | auto].
  - intros n. destruct (Hinv n) as [Ho Hm].
    unfold opens, get_service_count in *. cbn.
    rewrite filter_app, length_app. cbn. rewrite Nat.add_0_r. auto.
  - intros n. destruct (Hinv n) as [Ho Hm].
    unfold opens, get_service_count in *. cbn.
    rewrite filter_app, length_app. cbn. rewrite Nat.add_0_r. auto.
Qed.

Lemma opened_once_step uuid4 a s :
  opened_once (handler s) -> opened_once (handler (step uuid4 a s)).
Proof.
  apply (step_handler_invariant uuid4 opened_once).
  - intros h h' Hq Hinv n. destruct (Hinv n) as [Ho Hm].
    destruct (quiet_session _ _ Hq) as (calls & Hs & Hstop).
    unfold get_service_count.
    rewrite (quiet_history _ _ Hq), (quiet_services _ _ Hq).
    split; [|exact Hm].
    rewrite (opens_app n _ _ _ Hs), Ho.
    assert (Hnone : filter (is_open n) calls = []).
    { clear Hs. induction Hstop as [|c calls -> _ IH]; simpl; auto. }
    rewrite Hnone. simpl. apply Nat.add_0_r.
  - intros callback h Hinv n. destruct (Hinv n) as [Ho Hm].
    destruct callback as [| |name]; split; try exact Ho; try exact Hm.
    unfold run_callback. cbn [services set_services set_loop].
    rewrite mem_service_set. exact Hm.
  - apply opened_once_task.
Qed.

(** C6.  However a constructed handler is used, the session is asked to
    open a service exactly once if [_get_service] has been called with its
    name, however often, and not at all if it has not.  The first part of
    [_get_service] asks for the service when its name is not in
    [self.services], and puts it there; when the name is there it asks for
    nothing. *)
Theorem one_open_per_service
    (uuid4 : nat -> CorrelationId) (options : SessionOptions)
    (actions : list Action) (service_name : string) :
  opens service_name (handler (run uuid4 actions (start options))) =
    Nat.min 1 (get_service_count service_name
                 (handler (run uuid4 actions (start options)))) /\
  forall h,
    session (fst (_get_service_open service_name h)) =
      session h ++ (if Dict.mem service_name (services h) then []
                    else [openServiceAsync service_name]) /\
    Dict.mem service_name (services (fst (_get_service_open service_name h)))
      = true.
Proof.
  split.
  - apply (run_invariant uuid4 (fun s => opened_once (handler s))).
    + intros a s. apply opened_once_step.
    + intros n. split; reflexivity.
  - intros h. rewrite get_service_open_state. cbn.
    destruct (Dict.mem service_name (services h)) eqn:Hm; cbn.
    + now rewrite app_nil_r.
    + split; [reflexivity|]. rewrite mem_set. cbn.
      now rewrite String.eqb_refl.
Qed.

(** ** C7: registration and submission *)

(** The calls on the session that an action adds. *)
Definition issued (uuid4 : nat -> CorrelationId) (a : Action) (s : System)
  : list SessionCall :=
  skipn (List.length (session (handler s)))
        (session (handler (step uuid4 a s))).

Lemma skipn_length_app {A} (l l' : list A) :
  skipn (List.length l) (l ++ l') = l'.
Proof. now rewrite skipn_app, skipn_all, Nat.sub_diag. Qed.

Lemma Forall_replace_nth {A} (P : A -> Prop) i x l :
  Forall P l -> P x -> Forall P (replace_nth i x l).
Proof.
  intros Hl Hx. revert i.
  induction Hl as [|y l Hy Hl IH]; intros [|i]; simpl; auto.
Qed.

Lemma step_task_runs uuid4 i s t :
  nth_error (tasks s) i = Some t ->
  step uuid4 (task_runs i) s =
  {| handler := fst (task_step uuid4 t (handler s));
     tasks := replace_nth i (snd (task_step uuid4 t (handler s))) (tasks s) |}.
Proof.
  intros Hn. simpl. rewrite Hn.
  now destruct (task_step uuid4 t (handler s)).
Qed.

(** Only the step of [send_requests] that stands at its call of
    [sendRequest] submits. *)
Lemma issued_sendRequest uuid4 a s request cid :
  In (sendRequest request cid) (issued uuid4 a s) ->
  exists i rest,
    a = task_runs i /\
    nth_error (tasks s) i = Some (at_send (cid, request, rest)).
Proof.
  unfold issued.
  destruct a as [event| |reqs|service_name| |i].
  - simpl. destruct (call_spec event (handler s)) as (dq & res & E & _).
    destruct E as (_ & _ & Hq).
    destruct (quiet_session _ _ Hq) as (calls & -> & Hstop).
    rewrite skipn_length_app. rewrite Forall_forall in Hstop.
    intros Hin. now apply Hstop in Hin.
  - simpl. destruct (loop (handler s)) as [|[| |n] l]; simpl;
      rewrite skipn_all; contradiction.
  - simpl. rewrite skipn_all. contradiction.
  - simpl. rewrite skipn_all. contradiction.
  - simpl. destruct (stop_session_spec (handler s)) as (_ & _ & Hq).
    destruct (quiet_session _ _ Hq) as (calls & -> & Hstop).
    rewrite skipn_length_app. rewrite Forall_forall in Hstop.
    intros Hin. now apply Hstop in Hin.
  - destruct (nth_error (tasks s) i) as [t|] eqn:Hn.
    + rewrite (step_task_runs uuid4 i s t Hn). cbn [handler].
      destruct t as [reqs|[|r rest]|[| |] name caller|[[c r] rest]| |e];
        try rewrite task_step_enter; try rewrite task_step_wait;
        try rewrite get_service_open_state;
        unfold task_step; cbn;
        try (rewrite skipn_all; contradiction).
      * destruct (Dict.mem name (services (handler s))); cbn;
          [rewrite skipn_all; contradiction|].
        rewrite skipn_length_app. intros [Hin|[]]. discriminate.
      * rewrite skipn_length_app. intros [Hin|[]]. discriminate.
      * rewrite skipn_length_app. intros [Hin|[]].
        injection Hin as -> ->. eauto.
    + simpl. rewrite Hn, skipn_all. contradiction.
Qed.

(** What is known of the correlation id and the request that a coroutine
    holds inside the loop of [send_requests]: [Q] holds of them once the
    request is registered, given that [G] holds of the handler. *)
Section Registration.
Variable uuid4 : nat -> CorrelationId.
Variable G : Handler -> Prop.
Variable Q : Handler -> CorrelationId -> ReferenceDataRequest -> Prop.

Hypothesis G_step :
  forall a s, G (handler s) -> G (handler (step uuid4 a s)).
Hypothesis Q_step :
  forall a s c r, G (handler s) -> Q (handler s) c r ->
                  Q (handler (step uuid4 a s)) c r.
Hypothesis Q_new :
  forall h r, G h ->
    Q (set_requests (Dict.set (uuid4 (uuid_calls h)) r) (set_uuid_calls S h))
      (uuid4 (uuid_calls h)) r.

Definition task_inv (h : Handler) (t : Task) : Prop :=
  match t with
  | in_get_service _ _ (Some (c, r, _)) | at_send (c, r, _) => Q h c r
  | _ => True
  end.

Definition system_inv (s : System) : Prop :=
  G (handler s) /\ Forall (task_inv (handler s)) (tasks s).

Lemma task_inv_step a s t :
  G (handler s) -> task_inv (handler s) t ->
  task_inv (handler (step uuid4 a s)) t.
Proof.
  intros Hg.
  destruct t as [reqs|reqs|point name [[[c r] rest]|]|[[c r] rest]| |e];
    simpl; auto.
Qed.

Lemma task_next_inv t h :
  G h ->
  task_inv (fst (task_step uuid4 t h)) t ->
  task_inv (fst (task_step uuid4 t h)) (snd (task_step uuid4 t h)).
Proof.
  intros Hg.
  destruct t as [reqs|[|r rest]|[| |] name caller|[[c r] rest]| |e].
  - unfold task_step; cbn. now destruct (session_started h).
  - unfold task_step; cbn. auto.
  - unfold task_step; cbn. intros _. now apply Q_new.
  - rewrite task_step_enter. cbn. auto.
  - rewrite task_step_wait_next, task_step_wait.
    destruct (Dict.get name (services h)) as [[|]|]; cbn; auto.
  - unfold task_step; cbn. destruct caller as [[[c r] rest]|]; cbn; auto.
  - unfold task_step; cbn. auto.
  - unfold task_step; cbn. auto.
  - unfold task_step; cbn. auto.
Qed.

Lemma system_inv_step a s : system_inv s -> system_inv (step uuid4 a s).
Proof.
  intros [Hg Ht]. split; [now apply G_step|].
  assert (Hold : Forall (task_inv (handler (step uuid4 a s))) (tasks s)).
  { eapply Forall_impl; [|exact Ht]. intros t. now apply task_inv_step. }
  destruct a as [event| |reqs|service_name| |i]; try exact Hold.
  - simpl in *. now destruct (loop (handler s)).
  - simpl in *. apply Forall_app. split; [auto | repeat constructor].
  - simpl in *. apply Forall_app. split; [auto | repeat constructor].
  - destruct (nth_error (tasks s) i) as [t|] eqn:Hn.
    + rewrite (step_task_runs uuid4 i s t Hn) in *. cbn [handler tasks] in *.
      apply Forall_replace_nth; auto.
      apply task_next_inv; auto.
      rewrite Forall_forall in Hold. apply Hold.
      now apply nth_error_In with (n := i).
    + simpl in *. now rewrite Hn in *.
Qed.

Lemma system_inv_run actions s : system_inv s -> system_inv (run uuid4 actions s).
Proof. apply run_invariant. intros a s'. apply system_inv_step. Qed.

Lemma Q_run c r actions s :
  G (handler s) -> Q (handler s) c r -> Q (handler (run uuid4 actions s)) c r.
Proof.
  intros Hg Hq.
  apply (run_invariant uuid4
           (fun s => G (handler s) /\ Q (handler s) c r)); auto.
  intros a s' [Hg' Hq']. split; auto.
Qed.

(** When a step submits a request, [Q] holds of its correlation id and of
    it, before the step and ever after. *)
Lemma submission_inv actions s0 a request cid :
  system_inv s0 ->
  In (sendRequest request cid) (issued uuid4 a (run uuid4 actions s0)) ->
  Q (handler (run uuid4 actions s0)) cid request /\
  forall later,
    Q (handler (run uuid4 later (step uuid4 a (run uuid4 actions s0))))
      cid request.
Proof.
  intros Hinv Hin.
  destruct (system_inv_run actions s0 Hinv) as [Hg Ht].
  destruct (issued_sendRequest uuid4 a _ request cid Hin)
    as (i & rest & -> & Hn).
  assert (Hq : Q (handler (run uuid4 actions s0)) cid request).
  { rewrite Forall_forall in Ht.
    apply (Ht (at_send (cid, request, rest))).
    now apply nth_error_In with (n := i). }
  split; auto. intros later. apply Q_run; auto.
Qed.
End Registration.

(** The correlation ids in the table are values [uuid.uuid4] has returned. *)
Definition keys_drawn (uuid4 : nat -> CorrelationId) (h : Handler) : Prop :=
  forall cid, Dict.mem cid (requests h) = true ->
              exists k, k < uuid_calls h /\ cid = uuid4 k.

Section Fresh.
Variable uuid4 : nat -> CorrelationId.

Lemma keys_drawn_task t h :
  keys_drawn uuid4 h -> keys_drawn uuid4 (fst (task_step uuid4 t h)).
Proof.
  intros Hk.
  destruct t as [reqs|[|r rest]|[| |] name caller|[[c r] rest]| |e];
    try rewrite task_step_enter; try rewrite task_step_wait;
    try rewrite get_service_open_state;
    unfold task_step; cbn; auto.
  - intros cid. cbn. rewrite mem_set. intros [Hc|Hc]%orb_prop.
    + exists (uuid_calls h). split; [lia|].
      cbn in Hc. now apply N.eqb_eq in Hc.
    + destruct (Hk cid Hc) as (k & Hlt & ->). exists k. split; [lia | auto].
  - destruct (Dict.mem name (services h)); auto.
Qed.

Lemma keys_drawn_step a s :
  keys_drawn uuid4 (handler s) -> keys_drawn uuid4 (handler (step uuid4 a s)).
Proof.
  apply (step_handler_invariant uuid4 (keys_drawn uuid4)).
  - intros h h' Hq Hk cid.
    rewrite (quiet_requests _ _ Hq), (quiet_uuid _ _ Hq). apply Hk.
  - intros [| |name] h Hk; exact Hk.
  - apply keys_drawn_task.
Qed.

(** [uuid.uuid4] returns a new value at every call. *)
Hypothesis uuid4_fresh : forall m n, uuid4 m = uuid4 n -> m = n.

Lemma entry_task t h c r :
  keys_drawn uuid4 h ->
  Dict.get c (requests h) = Some r ->
  Dict.get c (requests (fst (task_step uuid4 t h))) = Some r.
Proof.
  intros Hk Hget.
  destruct t as [reqs|[|r0 rest]|[| |] name caller|[[c0 r0] rest]| |e];
    try rewrite task_step_enter; try rewrite task_step_wait;
    try rewrite get_service_open_state;
    unfold task_step; cbn; auto.
  - rewrite get_set_other; auto.
    destruct (Hk c) as (k & Hlt & ->); [apply mem_get; eauto|].
    intros Heq. apply uuid4_fresh in Heq. lia.
  - destruct (Dict.mem name (services h)); auto.
Qed.

Lemma entry_step a s c r :
  keys_drawn uuid4 (handler s) ->
  Dict.get c (requests (handler s)) = Some r ->
  Dict.get c (requests (handler (step uuid4 a s))) = Some r.
Proof.
  intros Hk Hget.
  apply (step_handler_invariant uuid4
           (fun h => keys_drawn uuid4 h /\ Dict.get c (requests h) = Some r));
    auto.
  - intros h h' Hq [Hk' Hget']. split.
    + intros cid. rewrite (quiet_requests _ _ Hq), (quiet_uuid _ _ Hq).
      apply Hk'.
    + now rewrite (quiet_requests _ _ Hq).
  - intros [| |name] h H; exact H.
  - intros t h [Hk' Hget']. split.
    + now apply keys_drawn_task.
    + now apply entry_task.
Qed.
End Fresh.

(** C7.  Whenever a step of [send_requests] calls [sendRequest] with a
    correlation id, the id is in the table before that step begins, put
    there by an earlier step, and it is there in every later state: an
    event with this id finds an entry.  If [uuid.uuid4] never returns a
    value twice, the entry is the submitted request. *)
Theorem registration_precedes_submission
    (uuid4 : nat -> CorrelationId) (options : SessionOptions)
    (actions : list Action) (a : Action)
    (request : ReferenceDataRequest) (cid : CorrelationId) :
  In (sendRequest request cid)
     (issued uuid4 a (run uuid4 actions (start options))) ->
  (Dict.mem cid (requests (handler (run uuid4 actions (start options)))) = true
   /\ forall later,
        Dict.mem cid
          (requests (handler (run uuid4 later
             (step uuid4 a (run uuid4 actions (start options)))))) = true) /\
  ((forall m n, uuid4 m = uuid4 n -> m = n) ->
   Dict.get cid (requests (handler (run uuid4 actions (start options))))
   = Some request /\
   forall later,
     Dict.get cid
       (requests (handler (run uuid4 later
          (step uuid4 a (run uuid4 actions (start options)))))) = Some request).
Proof.
  intros Hin. split.
  - refine (submission_inv uuid4 (fun _ => True)
              (fun h c _ => Dict.mem c (requests h) = true)
              _ _ _ actions (start options) a request cid _ Hin).
    + auto.
    + intros a' s c _ _. apply step_keeps_registered.
    + intros h r _. cbn. rewrite mem_set. cbn. now rewrite N.eqb_refl.
    + split; [exact I | constructor].
  - intros Hfresh.
    refine (submission_inv uuid4 (keys_drawn uuid4)
              (fun h c r => Dict.get c (requests h) = Some r)
              _ _ _ actions (start options) a request cid _ Hin).
    + apply keys_drawn_step.
    + intros a' s c r. now apply entry_step.
    + intros h r _. cbn. apply get_set_same.
    + split; [|constructor]. intros c Hc. discriminate.
Qed.

Lemma registration_precedes_submission_witness :
  Dict.mem Scenario.C1
    (requests (handler (run Scenario.uuid4 (firstn 10 Scenario.submission)
                            (start Scenario.options)))) = true /\
  Dict.get Scenario.C1
    (requests (handler (run Scenario.uuid4 (firstn 10 Scenario.submission)
                            (start Scenario.options)))) = Some Scenario.R1.
Proof.
  destruct (registration_precedes_submission Scenario.uuid4 Scenario.options
              (firstn 10 Scenario.submission) (task_runs 0)
              Scenario.R1 Scenario.C1) as [[Hm _] Hg].
  - vm_compute. left. reflexivity.
  - split; [exact Hm|]. apply Hg.
    intros m n Heq. unfold Scenario.uuid4 in Heq. lia.
Defined.

(** * Further properties of the handler *)

(** ** What the session thread leaves alone *)

(** [m] does not change what [f] reads of the handler. *)
Definition keeps {A B} (f : Handler -> B) (m : M A) : Prop :=
  forall h, f (fst (m h)) = f h.

Lemma keeps_ret {A B} (f : Handler -> B) (a : A) : keeps f (ret a).
Proof. intros h. reflexivity. Qed.

Lemma keeps_bind {A B C} (f : Handler -> C) (m : M A) (k : A -> M B) :
  keeps f m -> (forall a, keeps f (k a)) -> keeps f (bind m k).
Proof.
  intros Hm Hk h. unfold bind. specialize (Hm h).
  destruct (m h) as [h1 [a|e]]; simpl in *; auto.
  now rewrite (Hk a h1).
Qed.

Lemma keeps_for_each {A C} (f : Handler -> C) (body : A -> M unit) l :
  (forall x, keeps f (body x)) -> keeps f (for_each body l).
Proof.
  intros Hb. induction l as [|x l IH]; simpl.
  - apply keeps_ret.
  - apply keeps_bind; auto.
Qed.

Lemma keeps_comprehension {A B C} (f : Handler -> C) (g : A -> M B) l :
  (forall x, keeps f (g x)) -> keeps f (comprehension g l).
Proof.
  intros Hg. induction l as [|x l IH]; simpl.
  - apply keeps_ret.
  - apply keeps_bind; auto. intros y. apply keeps_bind; auto.
    intros ys. apply keeps_ret.
Qed.

Lemma keeps_requests_getitem {C} (f : Handler -> C) cor_id :
  keeps f (requests_getitem cor_id).
Proof.
  intros h. unfold requests_getitem.
  now destruct (Dict.get cor_id (requests h)).
Qed.

(** The response methods change nothing that the queues and the log do
    not hold. *)
Section ResponseFrame.
Context {C : Type} (f : Handler -> C).
Hypothesis f_queues : forall g h, f (set_queues g h) = f h.
Hypothesis f_logger : forall g h, f (set_logger g h) = f h.

Lemma keeps_close_requests rs : keeps f (_close_requests rs).
Proof. apply keeps_for_each. intros r h. apply f_queues. Qed.

Lemma keeps_is_error_msg msg : keeps f (_is_error_msg msg).
Proof.
  unfold _is_error_msg. destruct (hasElement msg RESPONSE_ERROR).
  - apply keeps_bind.
    + apply keeps_comprehension. intros c. apply keeps_requests_getitem.
    + intros rs. apply keeps_bind; [apply keeps_close_requests|].
      intros _. apply keeps_bind; [intros h; apply f_logger|].
      intros _. apply keeps_ret.
  - apply keeps_ret.
Qed.

Lemma keeps_partial_handler event_ : keeps f (_partial_handler event_).
Proof.
  apply keeps_for_each. intros msg. unfold _partial_handler_msg.
  apply keeps_bind; [apply keeps_is_error_msg|].
  intros [|]; [apply keeps_ret|].
  apply keeps_for_each. intros c.
  apply keeps_bind; [apply keeps_requests_getitem|].
  intros r h. apply f_queues.
Qed.

Lemma keeps_response_handler event_ : keeps f (_response_handler event_).
Proof.
  unfold _response_handler.
  apply keeps_bind; [apply keeps_partial_handler|]. intros _.
  apply keeps_for_each. intros msg.
  apply keeps_bind.
  - apply keeps_comprehension. intros c. apply keeps_requests_getitem.
  - intros rs. apply keeps_close_requests.
Qed.
End ResponseFrame.

(** The callbacks that processing an event hands to the loop: for a
    session status the [set] of the flag that the first message names, for
    a service status whose first message is [ServiceOpened] the [set] of
    the event of every service in [self.services], in the order of the
    dictionary. *)
Definition scheduled (event : Event) (h : Handler) : list Callback :=
  match eventType event, messages event with
  | SESSION_STATUS, msg :: _ =>
      (if String.eqb (name msg) "SessionStarted"
       then [session_started_set] else []) ++
      (if String.eqb (name msg) "SessionStopped"
       then [session_stopped_set] else [])
  | SERVICE_STATUS, msg :: _ =>
      if String.eqb (name msg) "ServiceOpened"
      then map (fun item : string * bool => service_event_set (fst item))
               (services h)
      else []
  | _, _ => []
  end.

Lemma call_unfold event h :
  __call__ event h =
  let h1 := set_logger
              (fun l => l ++ [(DEBUG, log_event_received (eventType event))]) h in
  match Dict.get (eventType event) method_map with
  | Some method => invoke method event h1
  | None => (h1, Raise (KeyError (key_event_type (eventType event))))
  end.
Proof.
  unfold __call__, bind, method_map_getitem, LOGGER_debug, modify, ret, raise.
  cbv beta iota zeta.
  now destruct (Dict.get (eventType event) method_map).
Qed.

Lemma for_each_cons_ok {A} (body : A -> M unit) x l h h1 :
  body x h = (h1, Ok tt) -> for_each body (x :: l) h = for_each body l h1.
Proof. intros Hb. simpl. unfold bind. now rewrite Hb. Qed.

Lemma service_loop_schedules (items : list (string * bool)) h :
  loop (fst (for_each (fun item : string * bool =>
                         LOGGER_debug (log_service_opened (fst item)) ;;
                         call_soon_threadsafe (service_event_set (fst item)))
                      items h)) =
    loop h ++ map (fun item => service_event_set (fst item)) items /\
  session (fst (for_each (fun item : string * bool =>
                         LOGGER_debug (log_service_opened (fst item)) ;;
                         call_soon_threadsafe (service_event_set (fst item)))
                      items h)) = session h.
Proof.
  revert h. induction items as [|item items IH]; intros h.
  - simpl. rewrite app_nil_r. auto.
  - rewrite for_each_cons_ok
      with (h1 := set_loop (fun l => l ++ [service_event_set (fst item)])
                    (set_logger
                       (fun l => l ++ [(DEBUG, log_service_opened (fst item))])
                       h))
      by reflexivity.
    destruct (IH (set_loop (fun l => l ++ [service_event_set (fst item)])
                    (set_logger
                       (fun l => l ++ [(DEBUG, log_service_opened (fst item))])
                       h))) as [Hl Hs].
    rewrite Hl, Hs. simpl. rewrite <- app_assoc. auto.
Qed.

Lemma bind_ret {A B} (a : A) (k : A -> M B) h : bind (ret a) k h = k a h.
Proof. reflexivity. Qed.

Lemma bind_gets {A B} (f : Handler -> A) (k : A -> M B) h :
  bind (gets f) k h = k (f h) h.
Proof. reflexivity. Qed.

Ltac straight_line :=
  unfold bind, ret, raise, gets, modify, LOGGER_debug, call_soon_threadsafe;
  simpl; rewrite <- ?app_assoc, ?app_nil_r; auto.

Lemma call_loop_session event h :
  loop (fst (__call__ event h)) = loop h ++ scheduled event h /\
  session (fst (__call__ event h)) = session h.
Proof.
  rewrite call_unfold. unfold scheduled.
  destruct (eventType event) eqn:Ht; cbv zeta; simpl Dict.get; cbv iota;
    try (simpl; now rewrite app_nil_r).
  - unfold invoke, _session_handler, first_message.
    destruct (messages event) as [|msg msgs]; [straight_line|].
    rewrite bind_ret.
    destruct (name msg =? "SessionStarted")%string;
      destruct (name msg =? "SessionStopped")%string; straight_line.
  - unfold invoke.
    rewrite (keeps_response_handler loop) by (intros; reflexivity).
    rewrite (keeps_response_handler session) by (intros; reflexivity).
    simpl. now rewrite app_nil_r.
  - unfold invoke.
    rewrite (keeps_partial_handler loop) by (intros; reflexivity).
    rewrite (keeps_partial_handler session) by (intros; reflexivity).
    simpl. now rewrite app_nil_r.
  - unfold invoke, _service_handler, first_message.
    destruct (messages event) as [|msg msgs]; [straight_line|].
    rewrite bind_ret.
    destruct (name msg =? "ServiceOpened")%string; [|straight_line].
    rewrite bind_gets.
    match goal with
    | |- context [for_each _ ?items ?h1] =>
        destruct (service_loop_schedules items h1) as [Hl Hs]
    end.
    split; [exact Hl | exact Hs].
Qed.

(** X1.  Whatever the event and however [__call__] ends, it leaves the
    table, the dictionary of the services, the two flags and the session
    alone: it adds to the queues and to the log, and hands callbacks to the
    loop.  A flag changes only when the loop runs a callback. *)
Theorem call_touches_queues_log_and_loop_only (event : Event) (h : Handler) :
  requests (fst (__call__ event h)) = requests h /\
  services (fst (__call__ event h)) = services h /\
  session_started (fst (__call__ event h)) = session_started h /\
  session_stopped (fst (__call__ event h)) = session_stopped h /\
  session (fst (__call__ event h)) = session h /\
  queues (fst (__call__ event h)) =
    queues h ++ pushed (__call__ event) h /\
  (exists lines, logger (fst (__call__ event h)) = logger h ++ lines /\
                 debug_only lines).
Proof.
  destruct (call_spec event h) as (dq & res & E & _).
  rewrite (effect_pushed _ _ _ _ E).
  destruct E as (_ & Hq & Hquiet).
  repeat split; try apply Hquiet; auto.
  apply call_loop_session.
Qed.

(** X2.  What processing an event hands to the loop depends on the type
    of the event and on its first message only: the response events and
    the events without a method hand over nothing, a session status the
    [set] of the flag its first message names, a service status that starts
    with [ServiceOpened] one [set] for every service in [self.services], in
    the order in which the services were first asked for. *)
Theorem call_schedules (event : Event) (h : Handler) :
  loop (fst (__call__ event h)) = loop h ++ scheduled event h.
Proof. apply call_loop_session. Qed.

(** X3.  A session status or service status event without a message makes
    [__call__] raise [IndexError], from [list(event_)[0]]; the line in the
    log is all that has happened. *)
Theorem status_event_without_message_raises (event : Event) (h : Handler) :
  eventType event = SESSION_STATUS \/ eventType event = SERVICE_STATUS ->
  messages event = [] ->
  __call__ event h =
  (set_logger (fun l => l ++ [(DEBUG, log_event_received (eventType event))]) h,
   Raise IndexError).
Proof.
  intros Ht Hm. rewrite call_unfold.
  destruct Ht as [Ht|Ht]; rewrite Ht; simpl;
    unfold _session_handler, _service_handler, first_message, bind;
    rewrite Hm; reflexivity.
Qed.

Lemma status_event_without_message_raises_witness :
  snd (__call__ {| eventType := SERVICE_STATUS; messages := [] |}
                Scenario.submitted) = Raise IndexError.
Proof.
  rewrite (status_event_without_message_raises
             {| eventType := SERVICE_STATUS; messages := [] |}
             Scenario.submitted); [reflexivity | now right | reflexivity].
Defined.

(** ** What the queues receive *)

Lemma forwarded_without_error d r msgs :
  forallb (fun msg => negb (is_error msg)) msgs = true ->
  forwarded d r msgs = map Some (payloads d r msgs).
Proof.
  unfold forwarded, payloads.
  induction msgs as [|msg msgs IH]; simpl; auto.
  intros [Hm Hms]%andb_prop. rewrite map_app, (IH Hms). f_equal.
  destruct (is_error msg); [discriminate|].
  induction (mentions d r msg); simpl; congruence.
Qed.

(** X4.  A [PARTIAL_RESPONSE] event whose correlation ids are registered
    is processed without an exception, and the queue of every request is
    extended, whatever it holds already, by what the first loop forwards to
    it: when no message has the error marker, exactly the messages that
    name the request, in the order of the event, each as often as it names
    it, and no sentinel. *)
Theorem partial_response_forwards_in_order
    (event : Event) (h : Handler) (r : nat) :
  eventType event = PARTIAL_RESPONSE ->
  all_registered (requests h) (messages event) = true ->
  snd (__call__ event h) = Ok tt /\
  channel r (fst (__call__ event h)) =
    channel r h ++ forwarded (requests h) r (messages event) /\
  (forallb (fun msg => negb (is_error msg)) (messages event) = true ->
   channel r (fst (__call__ event h)) =
     channel r h ++ map Some (payloads (requests h) r (messages event))).
Proof.
  intros Ht Hreg.
  destruct (call_partial_spec event h Ht) as (dq & (Hres & Hq & _) & _ & X).
  rewrite (check_all_registered _ _ Hreg) in Hres, X.
  specialize (X eq_refl). subst dq.
  assert (Hch : channel r (fst (__call__ event h)) =
                channel r h ++ forwarded (requests h) r (messages event)).
  { now rewrite (channel_app r _ _ _ Hq), pushed_to_forwarding. }
  split; [exact Hres|]. split; [exact Hch|].
  intros Hne. now rewrite Hch, forwarded_without_error.
Qed.

Lemma partial_response_forwards_in_order_witness :
  channel 1 (fst (__call__ {| eventType := PARTIAL_RESPONSE;
                              messages := [Scenario.msg1; Scenario.msg2] |}
                           Scenario.submitted)) =
  [Some Scenario.msg1; Some Scenario.msg2].
Proof.
  destruct (partial_response_forwards_in_order
              {| eventType := PARTIAL_RESPONSE;
                 messages := [Scenario.msg1; Scenario.msg2] |}
              Scenario.submitted 1) as (_ & _ & Hch).
  - reflexivity.
  - reflexivity.
  - rewrite Hch; reflexivity.
Defined.

(** How often messages with the error marker name the request [r]. *)
Definition error_mentions (d : Dict.t CorrelationId ReferenceDataRequest)
    (r : nat) (msgs : list Message) : nat :=
  list_sum (map (fun msg => if is_error msg then mentions d r msg else 0) msgs).

Lemma forwarded_sentinel_count d r msgs :
  List.length (filter is_sentinel (forwarded d r msgs)) =
  error_mentions d r msgs.
Proof.
  unfold forwarded, error_mentions.
  induction msgs as [|msg msgs IH]; simpl; auto.
  rewrite filter_app, length_app, IH, filter_repeat. f_equal.
  destruct (is_error msg); simpl; auto. apply repeat_length.
Qed.

(** X5.  The number of terminal sentinels that a [RESPONSE] event with
    registered correlation ids puts on the queue of a request: one for
    every time a message of the event names the request, and one more for
    every time a message with the error marker names it.  A request named
    by one message with the error marker is closed twice. *)
Theorem response_sentinel_count (event : Event) (h : Handler) (r : nat) :
  eventType event = RESPONSE ->
  all_registered (requests h) (messages event) = true ->
  sentinels r (fst (__call__ event h)) =
    sentinels r h + error_mentions (requests h) r (messages event)
                  + references (requests h) r (messages event).
Proof.
  intros Ht Hreg.
  destruct (call_response_spec event h Ht) as (dq & (_ & Hq & _) & _ & X).
  rewrite (check_all_registered _ _ Hreg) in X.
  specialize (X eq_refl). subst dq.
  rewrite (sentinels_app r _ _ _ Hq), pushed_to_app.
  rewrite pushed_to_forwarding, pushed_to_closing.
  rewrite filter_app, length_app, forwarded_sentinel_count.
  rewrite filter_repeat. simpl. rewrite repeat_length. lia.
Qed.

Lemma response_sentinel_count_witness :
  sentinels 1 (fst (__call__ {| eventType := RESPONSE;
                                messages := [Scenario.failure [Scenario.C1]] |}
                             Scenario.submitted)) = 2.
Proof.
  rewrite (response_sentinel_count
             {| eventType := RESPONSE;
                messages := [Scenario.failure [Scenario.C1]] |}
             Scenario.submitted 1); reflexivity.
Defined.

(** ** One message, whatever the table holds *)

(** The correlation ids up to the first one that is not in the table. *)
Fixpoint found (d : Dict.t CorrelationId ReferenceDataRequest)
    (cor_ids : list CorrelationId) : list CorrelationId :=
  match cor_ids with
  | [] => []
  | c :: cs =>
      match Dict.get c d with
      | Some _ => c :: found d cs
      | None => []
      end
  end.

Lemma found_registered d cor_ids :
  registered d cor_ids = true -> found d cor_ids = cor_ids.
Proof.
  unfold registered. induction cor_ids as [|c cs IH]; simpl; auto.
  intros [Hc Hcs]%andb_prop. apply mem_get in Hc as [r ->].
  now rewrite IH.
Qed.

Lemma effect_forward_found msg cor_ids h :
  effect (for_each (fun cor_id =>
                      request <- requests_getitem cor_id ;;
                      send_queue_message request (Some msg)) cor_ids)
         h
         (map (fun r => (request_id r, Some msg))
              (owners (requests h) (found (requests h) cor_ids)))
         (check (requests h) cor_ids).
Proof.
  revert h. induction cor_ids as [|c cs IH]; intros h.
  - apply effect_ret.
  - cbn [for_each found check].
    destruct (Dict.get c (requests h)) as [r|] eqn:Hget.
    + unfold owners. cbn [flat_map]. rewrite Hget. cbn [app map].
      eapply effect_bind_cons with (a := tt).
      * eapply effect_bind_nil with (a := r).
        -- unfold effect, requests_getitem. rewrite Hget. simpl.
           rewrite app_nil_r. auto using quiet_refl.
        -- unfold requests_getitem. rewrite Hget.
           apply effect_send_queue_message.
      * match goal with
        | |- effect _ ?h1 _ _ =>
            assert (Hreq : requests h1 = requests h)
        end.
        { unfold bind, requests_getitem. now rewrite Hget. }
        specialize (IH (fst ((request <- requests_getitem c ;;
                              send_queue_message request (Some msg)) h))).
        rewrite Hreq in IH. exact IH.
    + simpl. apply effect_bind_raise, effect_bind_raise.
      unfold effect, requests_getitem. rewrite Hget. simpl.
      rewrite app_nil_r. auto using quiet_refl.
Qed.

(** X6.  The body of the loop of [_partial_handler], for any message and
    any table.  It ends with the outcome of looking the correlation ids of
    the message up in order.  A message with the error marker closes all
    the requests it names or, when one id is missing, none: the lookups
    come before the first push.  A message without the marker is forwarded
    for the ids before the first missing one, and stays forwarded when the
    lookup of that one raises. *)
Theorem partial_handler_msg_pushes (msg : Message) (h : Handler) :
  snd (_partial_handler_msg msg h) =
    check (requests h) (correlationIds msg) /\
  pushed (_partial_handler_msg msg) h =
    if is_error msg then
      match check (requests h) (correlationIds msg) with
      | Ok _ => map sentinel_for (owners (requests h) (correlationIds msg))
      | Raise _ => []
      end
    else
      map (fun r => (request_id r, Some msg))
          (owners (requests h)
                  (found (requests h) (correlationIds msg))).
Proof.
  pose proof (effect_is_error_msg msg h) as He.
  destruct (is_error msg) eqn:Herr.
  - destruct (check (requests h) (correlationIds msg)) as [[]|e].
    + assert (E : effect (_partial_handler_msg msg) h
                    (map sentinel_for
                         (owners (requests h) (correlationIds msg)))
                    (Ok tt)).
      { unfold _partial_handler_msg.
        eapply effect_bind_end; [exact He | apply effect_ret]. }
      split; [apply E | apply (effect_pushed _ _ _ _ E)].
    + assert (E : effect (_partial_handler_msg msg) h [] (Raise e)).
      { unfold _partial_handler_msg. now apply effect_bind_raise. }
      split; [apply E | apply (effect_pushed _ _ _ _ E)].
  - pose proof (effect_forward_found msg (correlationIds msg)
                  (fst (_is_error_msg msg h))) as Ef.
    rewrite (effect_requests _ _ _ _ He) in Ef.
    assert (E : effect (_partial_handler_msg msg) h
                  (map (fun r => (request_id r, Some msg))
                       (owners (requests h)
                               (found (requests h) (correlationIds msg))))
                  (check (requests h) (correlationIds msg))).
    { unfold _partial_handler_msg.
      eapply effect_bind_nil; [exact He | exact Ef]. }
    split; [apply E | apply (effect_pushed _ _ _ _ E)].
Qed.

(** ** Who receives *)

(** [p] is a push onto the queue of a request that a correlation id of one
    of the messages names in the table [d]. *)
Definition named_by (d : Dict.t CorrelationId ReferenceDataRequest)
    (msgs : list Message) (p : nat * option Message) : Prop :=
  exists msg c request,
    In msg msgs /\ In c (correlationIds msg) /\
    Dict.get c d = Some request /\ fst p = request_id request.

Lemma owners_In d cor_ids r :
  In r (owners d cor_ids) ->
  exists c, In c cor_ids /\ Dict.get c d = Some r.
Proof.
  unfold owners. intros (c & Hc & Hr)%in_flat_map. exists c. split; auto.
  destruct (Dict.get c d) as [r'|]; [|contradiction].
  destruct Hr as [->|[]]. reflexivity.
Qed.

Lemma found_In d cor_ids c : In c (found d cor_ids) -> In c cor_ids.
Proof.
  induction cor_ids as [|c' cs IH]; simpl; auto.
  destruct (Dict.get c' d); [|contradiction].
  intros [->|Hin]; auto.
Qed.

Lemma for_each_pushes {A} (R : nat * option Message -> Prop)
    (d : Dict.t CorrelationId ReferenceDataRequest) (body : A -> M unit) l :
  (forall x, In x l -> forall h, requests h = d ->
     exists dq res, effect (body x) h dq res /\ Forall R dq) ->
  forall h, requests h = d ->
    exists dq res, effect (for_each body l) h dq res /\ Forall R dq.
Proof.
  induction l as [|x l IH]; intros Hb h Hd.
  - exists [], (Ok tt). split; [apply effect_ret | constructor].
  - destruct (Hb x (or_introl eq_refl) h Hd) as (dq1 & res1 & E1 & F1).
    cbn [for_each]. destruct res1 as [[]|e].
    + destruct (IH (fun y Hy => Hb y (or_intror Hy)) (fst (body x h)))
        as (dq2 & res2 & E2 & F2).
      { now rewrite (effect_requests _ _ _ _ E1). }
      exists (dq1 ++ dq2), res2. split.
      * eapply effect_bind; eauto.
      * apply Forall_app; auto.
    + exists dq1, (Raise e). split; auto. now apply effect_bind_raise.
Qed.

Lemma partial_handler_named event_ h :
  exists dq res,
    effect (_partial_handler event_) h dq res /\
    Forall (named_by (requests h) (messages event_)) dq.
Proof.
  apply (for_each_pushes _ (requests h)); auto.
  intros msg Hmsg h1 Hd.
  pose proof (partial_handler_msg_spec msg h1) as (dq & E & _).
  exists dq; eexists. split; [exact E|].
  destruct (partial_handler_msg_pushes msg h1) as [_ Hp].
  rewrite (effect_pushed _ _ _ _ E) in Hp. rewrite Hp, Hd.
  apply Forall_forall. intros p Hin.
  assert (Hr : exists r cs, In r (owners (requests h) cs) /\
                            (forall c, In c cs -> In c (correlationIds msg)) /\
                            fst p = request_id r).
  { destruct (is_error msg).
    - destruct (check (requests h) (correlationIds msg)); [|contradiction].
      apply in_map_iff in Hin as (r & <- & Hr). eauto.
    - apply in_map_iff in Hin as (r & <- & Hr).
      exists r, (found (requests h) (correlationIds msg)).
      split; [auto|]. split; [apply found_In | reflexivity]. }
  destruct Hr as (r & cs & Hr & Hcs & Hp').
  apply owners_In in Hr as (c & Hc & Hget).
  exists msg, c, r. auto.
Qed.

Lemma closing_loop_named msgs h :
  exists dq res,
    effect (for_each (fun msg =>
                        requests <- comprehension requests_getitem
                                      (correlationIds msg) ;;
                        _close_requests requests) msgs) h dq res /\
    Forall (named_by (requests h) msgs) dq.
Proof.
  apply (for_each_pushes _ (requests h)); auto.
  intros msg Hmsg h1 Hd.
  pose proof (effect_lookup_close (correlationIds msg) h1) as E.
  eexists; eexists. split; [exact E|]. rewrite Hd.
  apply Forall_forall. intros p Hin.
  destruct (check (requests h) (correlationIds msg)); [|contradiction].
  apply in_map_iff in Hin as (r & <- & Hr).
  apply owners_In in Hr as (c & Hc & Hget).
  exists msg, c, r. auto.
Qed.

(** X7.  Whatever the event and the state of the handler, and also when
    processing ends in an exception, [__call__] pushes only onto queues of
    requests that are in the table under a correlation id of one of the
    messages of the event.  A request that no message names receives
    nothing. *)
Theorem call_pushes_to_named_requests
    (event : Event) (h : Handler) (p : nat * option Message) :
  In p (pushed (__call__ event) h) ->
  named_by (requests h) (messages event) p.
Proof.
  assert (H : exists dq res,
             effect (__call__ event) h dq res /\
             Forall (named_by (requests h) (messages event)) dq).
  { destruct (eventType event) eqn:Ht;
      try (exists [], (Raise (KeyError (key_event_type (eventType event))));
           split; [apply effect_call_unknown; now rewrite Ht | constructor]).
    - destruct (session_handler_spec event
                  (fst (LOGGER_debug (log_event_received (eventType event)) h)))
        as (res & E).
      exists [], res. split; [|constructor].
      apply effect_call_known with (method := session_handler_method); auto.
      now rewrite Ht.
    - destruct (partial_handler_named event
                  (fst (LOGGER_debug (log_event_received (eventType event)) h)))
        as (dq1 & res1 & E1 & F1).
      destruct res1 as [[]|e].
      + destruct (closing_loop_named (messages event)
                    (fst (_partial_handler event
                       (fst (LOGGER_debug
                               (log_event_received (eventType event)) h)))))
          as (dq2 & res2 & E2 & F2).
        rewrite (effect_requests _ _ _ _ E1) in F2.
        exists (dq1 ++ dq2), res2. split; [|apply Forall_app; auto].
        apply effect_call_known with (method := response_handler_method);
          [now rewrite Ht|].
        eapply effect_bind; eauto.
      + exists dq1, (Raise e). split; auto.
        apply effect_call_known with (method := response_handler_method);
          [now rewrite Ht|].
        now apply effect_bind_raise.
    - destruct (partial_handler_named event
                  (fst (LOGGER_debug (log_event_received (eventType event)) h)))
        as (dq & res & E & F).
      exists dq, res. split; auto.
      apply effect_call_known with (method := partial_handler_method); auto.
      now rewrite Ht.
    - destruct (service_handler_spec event
                  (fst (LOGGER_debug (log_event_received (eventType event)) h)))
        as (res & E).
      exists [], res. split; [|constructor].
      apply effect_call_known with (method := service_handler_method); auto.
      now rewrite Ht. }
  destruct H as (dq & res & E & F).
  rewrite (effect_pushed _ _ _ _ E). rewrite Forall_forall in F. apply F.
Qed.

Lemma call_pushes_to_named_requests_witness :
  named_by (requests Scenario.submitted) [Scenario.msg1] (1, Some Scenario.msg1).
Proof.
  apply (call_pushes_to_named_requests
           {| eventType := PARTIAL_RESPONSE; messages := [Scenario.msg1] |}
           Scenario.submitted).
  vm_compute. left. reflexivity.
Defined.

(** ** Shutting down *)

(** How many entries of the table hold the request [r]. *)
Definition entries (r : nat) (d : Dict.t CorrelationId ReferenceDataRequest)
  : nat :=
  List.length (filter (fun q => Nat.eqb (request_id q) r) (Dict.values d)).

(** X8.  [stop_session] never raises.  It puts one terminal sentinel on
    the queue of a request for every entry that the request has in the
    table, whatever the queue holds, and nothing on the queue of a request
    without an entry; it then calls [stopAsync], once, and sets no flag:
    [session_stopped] waits for the session to report.  Calling it again
    pushes the sentinels again. *)
Theorem stop_session_closes_every_entry (h : Handler) (r : nat) :
  snd (stop_session h) = Ok tt /\
  channel r (fst (stop_session h)) =
    channel r h ++ repeat None (entries r (requests h)) /\
  session (fst (stop_session h)) = session h ++ [stopAsync] /\
  session_stopped (fst (stop_session h)) = session_stopped h /\
  channel r (fst (stop_session (fst (stop_session h)))) =
    channel r h ++ repeat None (2 * entries r (requests h)).
Proof.
  assert (Hone : forall h0,
            snd (stop_session h0) = Ok tt /\
            requests (fst (stop_session h0)) = requests h0 /\
            channel r (fst (stop_session h0)) =
              channel r h0 ++ repeat None (entries r (requests h0))).
  { intros h0. destruct (stop_session_spec h0) as (Hres & Hq & Hquiet).
    split; [exact Hres|]. split; [apply Hquiet|].
    rewrite (channel_app r _ _ _ Hq). f_equal.
    apply (pushed_to_const r None). }
  destruct (Hone h) as (Hres & Hreq & Hch).
  destruct (Hone (fst (stop_session h))) as (_ & _ & Hch2).
  split; [exact Hres|]. split; [exact Hch|]. split; [|split].
  - unfold stop_session. rewrite bind_gets. unfold bind.
    pose proof (keeps_close_requests session (fun _ _ => eq_refl)
                  (Dict.values (requests h)) h) as Hs.
    destruct (effect_close_requests (Dict.values (requests h)) h)
      as (Hok & _ & _).
    destruct (_close_requests (Dict.values (requests h)) h) as [h1 res].
    simpl in Hs, Hok. subst res. simpl. now rewrite Hs.
  - destruct (stop_session_spec h) as (_ & _ & Hquiet). apply Hquiet.
  - rewrite Hch2, Hreq, Hch, <- app_assoc, <- repeat_app. do 2 f_equal. lia.
Qed.

(** ** The flags *)

Lemma get_service_set n n' d :
  Dict.get n d = Some true -> Dict.get n (service_set n' d) = Some true.
Proof.
  induction d as [|[k v] d IH]; simpl; [discriminate|].
  destruct (String.eqb k n'); simpl; destruct (String.eqb n k); auto.
Qed.

Lemma get_service_set_same n d :
  Dict.mem n d = true -> Dict.get n (service_set n d) = Some true.
Proof.
  unfold Dict.mem. induction d as [|[k v] d IH]; simpl; [discriminate|].
  destruct (String.eqb_spec k n) as [->|Hne]; simpl.
  - now rewrite String.eqb_refl.
  - destruct (String.eqb_spec n k) as [->|_]; [contradiction | auto].
Qed.

Section Flags.
Variable uuid4 : nat -> CorrelationId.

Lemma started_step a s :
  session_started (handler s) = true ->
  session_started (handler (step uuid4 a s)) = true.
Proof.
  apply (step_handler_invariant uuid4 (fun h => session_started h = true)).
  - intros h h' Hq. now rewrite (quiet_started _ _ Hq).
  - intros [| |n] h; auto.
  - intros t h Hs.
    destruct t as [reqs|[|r rest]|[| |] name caller|[[c r] rest]| |e];
      try rewrite task_step_enter; try rewrite task_step_wait;
      try rewrite get_service_open_state;
      unfold task_step; cbn; auto.
    destruct (Dict.mem name (services h)); auto.
Qed.

Lemma stopped_step a s :
  session_stopped (handler s) = true ->
  session_stopped (handler (step uuid4 a s)) = true.
Proof.
  apply (step_handler_invariant uuid4 (fun h => session_stopped h = true)).
  - intros h h' Hq. now rewrite (quiet_stopped _ _ Hq).
  - intros [| |n] h; auto.
  - intros t h Hs.
    destruct t as [reqs|[|r rest]|[| |] name caller|[[c r] rest]| |e];
      try rewrite task_step_enter; try rewrite task_step_wait;
      try rewrite get_service_open_state;
      unfold task_step; cbn; auto.
    destruct (Dict.mem name (services h)); auto.
Qed.

Lemma service_set_step n a s :
  Dict.get n (services (handler s)) = Some true ->
  Dict.get n (services (handler (step uuid4 a s))) = Some true.
Proof.
  apply (step_handler_invariant uuid4
           (fun h => Dict.get n (services h) = Some true)).
  - intros h h' Hq. now rewrite (quiet_services _ _ Hq).
  - intros [| |n'] h; auto. cbn. apply get_service_set.
  - intros t h Hs.
    destruct t as [reqs|[|r rest]|[| |] name caller|[[c r] rest]| |e];
      try rewrite task_step_enter; try rewrite task_step_wait;
      try rewrite get_service_open_state;
      unfold task_step; cbn; auto.
    destruct (Dict.mem name (services h)) eqn:Hm; cbn; auto.
    rewrite get_set_other; auto. intros ->.
    unfold Dict.mem in Hm. now rewrite Hs in Hm.
Qed.

(** X9.  The flags are only ever set.  Once [session_started] or
    [session_stopped] is set, or the event of a service is, it stays set
    whatever the session delivers and whatever is called, [stop_session]
    included. *)
Theorem flags_stay_set (actions : list Action) (s : System) :
  (session_started (handler s) = true ->
   session_started (handler (run uuid4 actions s)) = true) /\
  (session_stopped (handler s) = true ->
   session_stopped (handler (run uuid4 actions s)) = true) /\
  (forall n, Dict.get n (services (handler s)) = Some true ->
             Dict.get n (services (handler (run uuid4 actions s))) = Some true).
Proof.
  split; [|split].
  - apply (run_invariant uuid4
             (fun s => session_started (handler s) = true)).
    intros a s'. apply started_step.
  - apply (run_invariant uuid4
             (fun s => session_stopped (handler s) = true)).
    intros a s'. apply stopped_step.
  - intros n.
    apply (run_invariant uuid4
             (fun s => Dict.get n (services (handler s)) = Some true)).
    intros a s'. apply service_set_step.
Qed.

(** ** When a request is submitted *)

Lemma session_grows a s :
  session (handler (step uuid4 a s)) =
  session (handler s) ++ issued uuid4 a s.
Proof.
  assert (H : exists calls,
             session (handler (step uuid4 a s)) = session (handler s) ++ calls).
  { apply (step_handler_invariant uuid4
             (fun h => exists calls, session h = session (handler s) ++ calls)).
    - intros h h' Hq (calls & Hc).
      destruct (quiet_session _ _ Hq) as (calls' & Hc' & _).
      exists (calls ++ calls'). now rewrite Hc', Hc, app_assoc.
    - intros [| |n] h Hc; exact Hc.
    - intros t h (calls & Hc).
      destruct t as [reqs|[|r rest]|[| |] name caller|[[c r] rest]| |e];
        try rewrite task_step_enter; try rewrite task_step_wait;
        try rewrite get_service_open_state;
        unfold task_step; cbn; eauto.
      + destruct (Dict.mem name (services h)); cbn; eauto.
        eexists. rewrite Hc, <- app_assoc. reflexivity.
      + eexists. rewrite Hc, <- app_assoc. reflexivity.
      + eexists. rewrite Hc, <- app_assoc. reflexivity.
    - exists []. now rewrite app_nil_r. }
  destruct H as (calls & Hc). unfold issued.
  now rewrite Hc, skipn_length_app.
Qed.

(** What a coroutine knows at each of its points: past the first line the
    session has started, and past the wait of [_get_service] the event of
    the service is set. *)
Definition task_gate (h : Handler) (t : Task) : Prop :=
  match t with
  | at_wait_session _ | returned | failed _ => True
  | at_for _ => session_started h = true
  | in_get_service point n caller =>
      match point with
      | gs_return => Dict.get n (services h) = Some true
      | _ => True
      end /\
      match caller with
      | Some (_, r, _) => session_started h = true /\ n = service_name r
      | None => True
      end
  | at_send (_, r, _) =>
      session_started h = true /\
      Dict.get (service_name r) (services h) = Some true
  end.

Definition submitted_open (h : Handler) : Prop :=
  forall r c, In (sendRequest r c) (session h) ->
    session_started h = true /\
    Dict.get (service_name r) (services h) = Some true.

Definition gate_inv (s : System) : Prop :=
  submitted_open (handler s) /\ Forall (task_gate (handler s)) (tasks s).

Lemma task_gate_step a s t :
  task_gate (handler s) t -> task_gate (handler (step uuid4 a s)) t.
Proof.
  destruct t as [reqs|reqs|point n [[[c r] rest]|]|[[c r] rest]| |e];
    simpl; auto using started_step.
  - intros [Hp [Hs Hn]]. split; [|auto using started_step].
    destruct point; auto using service_set_step.
  - intros [Hp _]. split; auto.
    destruct point; auto using service_set_step.
  - intros [Hs Hg]. auto using started_step, service_set_step.
Qed.

Lemma task_gate_next t h :
  task_gate h t ->
  task_gate (fst (task_step uuid4 t h)) (snd (task_step uuid4 t h)).
Proof.
  destruct t as [reqs|[|r rest]|[| |] n caller|[[c r] rest]| |e].
  - unfold task_step; cbn. now destruct (session_started h) eqn:Hs.
  - unfold task_step; cbn. auto.
  - unfold task_step; cbn. auto.
  - rewrite task_step_enter, get_service_open_state. cbn.
    intros [_ Hc]. split; auto.
    destruct caller as [[[c r] rest]|]; auto.
    destruct (Dict.mem n (services h)); exact Hc.
  - rewrite task_step_wait_next, task_step_wait.
    intros [_ Hc].
    destruct (Dict.get n (services h)) as [[|]|] eqn:Hg; cbn; auto.
  - unfold task_step; cbn. intros [Hg Hc].
    destruct caller as [[[c r] rest]|]; cbn; auto.
    destruct Hc as [Hs ->]. auto.
  - unfold task_step; cbn. now intros [Hs _].
  - unfold task_step; cbn. auto.
  - unfold task_step; cbn. auto.
Qed.

Lemma gate_inv_step a s : gate_inv s -> gate_inv (step uuid4 a s).
Proof.
  intros [Hsub Ht]. split.
  - intros r c. rewrite session_grows. intros [Hin|Hin]%in_app_or.
    + destruct (Hsub r c Hin). auto using started_step, service_set_step.
    + destruct (issued_sendRequest uuid4 a s r c Hin) as (i & rest & -> & Hn).
      rewrite Forall_forall in Ht.
      destruct (Ht _ (nth_error_In _ _ Hn)) as [Hs Hg].
      auto using started_step, service_set_step.
  - assert (Hold : Forall (task_gate (handler (step uuid4 a s))) (tasks s)).
    { eapply Forall_impl; [|exact Ht]. intros t. apply task_gate_step. }
    destruct a as [event| |reqs|n| |i]; try exact Hold.
    + simpl in *. now destruct (loop (handler s)).
    + simpl in *. apply Forall_app. split; [auto | repeat constructor].
    + simpl in *. apply Forall_app. split; [auto | repeat constructor].
    + destruct (nth_error (tasks s) i) as [t|] eqn:Hn.
      * rewrite (step_task_runs uuid4 i s t Hn) in *.
        cbn [handler tasks] in *.
        apply Forall_replace_nth; auto.
        apply task_gate_next.
        rewrite Forall_forall in Ht. apply Ht.
        now apply nth_error_In with (n := i).
      * simpl in *. now rewrite Hn in *.
Qed.

(** X10.  However a handler constructed inside a running loop is used,
    [send_requests] has called [sendRequest] for a request only if the
    flag [session_started] is set and the event of the service of the
    request is set: no request reaches the session before the session has
    started and its service has been reported open. *)
Theorem submitted_after_start_and_open
    (options : SessionOptions) (actions : list Action)
    (request : ReferenceDataRequest) (cid : CorrelationId) :
  In (sendRequest request cid)
     (session (handler (run uuid4 actions (start options)))) ->
  session_started (handler (run uuid4 actions (start options))) = true /\
  Dict.get (service_name request)
           (services (handler (run uuid4 actions (start options)))) = Some true.
Proof.
  assert (Hinv : gate_inv (run uuid4 actions (start options))).
  { apply (run_invariant uuid4 gate_inv).
    - intros a s. apply gate_inv_step.
    - split; [|constructor]. intros r c [Hin|[Hin|[]]]; discriminate. }
  apply Hinv.
Qed.
End Flags.

Lemma flags_stay_set_witness :
  session_started
    (handler (run Scenario.uuid4 [call_stop_session]
                  (run Scenario.uuid4 Scenario.submission
                       (start Scenario.options)))) = true.
Proof.
  apply (proj1 (flags_stay_set Scenario.uuid4 [call_stop_session]
                  (run Scenario.uuid4 Scenario.submission
                       (start Scenario.options)))).
  reflexivity.
Defined.

Lemma submitted_after_start_and_open_witness :
  session_started Scenario.submitted = true /\
  Dict.get "//blp/refdata"%string (services Scenario.submitted) = Some true.
Proof.
  apply (submitted_after_start_and_open Scenario.uuid4 Scenario.options
           Scenario.submission Scenario.R1 Scenario.C1).
  vm_compute. do 4 right. left. reflexivity.
Defined.

(** ** Where a set flag comes from *)

Lemma task_step_loop uuid4 t h : loop (fst (task_step uuid4 t h)) = loop h.
Proof.
  destruct t as [reqs|[|r rest]|[| |] name caller|[[c r] rest]| |e];
    try rewrite task_step_enter; try rewrite task_step_wait;
    try rewrite get_service_open_state;
    unfold task_step; cbn; auto.
  destruct (Dict.mem name (services h)); auto.
Qed.

Lemma stop_session_loop h : loop (fst (stop_session h)) = loop h.
Proof.
  unfold stop_session. rewrite bind_gets. unfold bind.
  pose proof (keeps_close_requests loop (fun _ _ => eq_refl)
                (Dict.values (requests h)) h) as Hl.
  destruct (_close_requests (Dict.values (requests h)) h) as [h1 [[]|e]];
    simpl in *; auto.
Qed.

(** A flag [F] that only the callbacks [C] set, which only the events [E]
    hand to the loop, is not set as long as no such event has arrived. *)
Section Provenance.
Variable uuid4 : nat -> CorrelationId.
Variable F : Handler -> bool.
Variable C : Callback -> bool.
Variable E : Event -> bool.

Hypothesis F_quiet : forall h h', quiet h h' -> F h' = F h.
Hypothesis F_task :
  forall t h, F (fst (task_step uuid4 t h)) = true -> F h = true.
Hypothesis F_callback :
  forall callback h, C callback = false ->
    F (run_callback callback (set_loop (@tl Callback) h)) = F h.
Hypothesis E_scheduled :
  forall event h, E event = false ->
    forallb (fun callback => negb (C callback)) (scheduled event h) = true.

Definition delivers (a : Action) : bool :=
  match a with
  | event_arrives event => E event
  | _ => false
  end.

Definition unset (h : Handler) : Prop :=
  F h = false /\ forallb (fun callback => negb (C callback)) (loop h) = true.

Lemma unset_step a s :
  delivers a = false -> unset (handler s) -> unset (handler (step uuid4 a s)).
Proof.
  intros Ha [Hf Hl].
  destruct a as [event| |reqs|n| |i]; simpl in *; try (split; assumption).
  - destruct (call_spec event (handler s)) as (dq & res & (_ & _ & Hq) & _).
    split; [now rewrite (F_quiet _ _ Hq)|].
    rewrite (proj1 (call_loop_session event (handler s))), forallb_app, Hl.
    now apply E_scheduled.
  - destruct (loop (handler s)) as [|callback l] eqn:Hloop;
      [split; [assumption | now rewrite Hloop]|].
    simpl in *. apply andb_prop in Hl as [Hc Hl].
    apply negb_true_iff in Hc. split.
    + now rewrite F_callback.
    + destruct callback; simpl; now rewrite Hloop.
  - destruct (stop_session_spec (handler s)) as (_ & _ & Hq).
    split; [now rewrite (F_quiet _ _ Hq) | now rewrite stop_session_loop].
  - destruct (nth_error (tasks s) i) as [t|]; [|split; assumption].
    pose proof (F_task t (handler s)) as Ht.
    pose proof (task_step_loop uuid4 t (handler s)) as Hloop.
    destruct (task_step uuid4 t (handler s)) as [h' t']. simpl in *.
    split; [|now rewrite Hloop].
    destruct (F h'); auto. rewrite Ht in Hf; auto.
Qed.

Lemma unset_run actions :
  forall s, existsb delivers actions = false -> unset (handler s) ->
            unset (handler (run uuid4 actions s)).
Proof.
  induction actions as [|a actions IH]; intros s Hex Hs; simpl in *; auto.
  apply orb_false_iff in Hex as [Ha Hex].
  apply IH; auto. now apply unset_step.
Qed.

Lemma set_after_delivery actions s :
  unset (handler s) -> F (handler (run uuid4 actions s)) = true ->
  existsb delivers actions = true.
Proof.
  intros Hs Hf. destruct (existsb delivers actions) eqn:Hex; auto.
  destruct (unset_run actions s Hex Hs) as [Hf' _]. congruence.
Qed.
End Provenance.

(** The first message of a status event of the given type has the name. *)
Definition reports (t : EventType) (element : string) (event : Event) : bool :=
  match messages event with
  | msg :: _ => EventType_eqb (eventType event) t && String.eqb (name msg) element
  | [] => false
  end.

Definition sets_started (callback : Callback) : bool :=
  match callback with session_started_set => true | _ => false end.

Definition sets_stopped (callback : Callback) : bool :=
  match callback with session_stopped_set => true | _ => false end.

Definition sets_service (callback : Callback) : bool :=
  match callback with service_event_set _ => true | _ => false end.

(** The event of some service is set. *)
Definition some_service_set (h : Handler) : bool :=
  existsb (fun item : string * bool => snd item) (services h).

Lemma existsb_set_false n (d : Dict.t string bool) :
  existsb (fun item : string * bool => snd item) (Dict.set n false d) = true ->
  existsb (fun item : string * bool => snd item) d = true.
Proof.
  induction d as [|[k v] d IH]; simpl; auto.
  destruct (String.eqb n k); simpl.
  - intros H. rewrite H. apply orb_true_r.
  - intros [H|H]%orb_prop; [now rewrite H|]. rewrite IH; auto.
    apply orb_true_r.
Qed.

Lemma get_some_service_set n h :
  Dict.get n (services h) = Some true -> some_service_set h = true.
Proof.
  unfold some_service_set. induction (services h) as [|[k v] d IH]; simpl;
    [discriminate|].
  destruct (String.eqb n k).
  - intros [= ->]. reflexivity.
  - intros H. rewrite IH; auto. apply orb_true_r.
Qed.

Lemma scheduled_started event h :
  reports SESSION_STATUS "SessionStarted" event = false ->
  forallb (fun callback => negb (sets_started callback)) (scheduled event h)
  = true.
Proof.
  unfold reports, scheduled.
  destruct (messages event) as [|msg msgs]; [now destruct (eventType event)|].
  destruct (eventType event); simpl; auto.
  - intros ->. simpl. now destruct (name msg =? "SessionStopped")%string.
  - intros _. destruct (name msg =? "ServiceOpened")%string; auto.
    induction (services h); simpl; auto.
Qed.

Lemma scheduled_stopped event h :
  reports SESSION_STATUS "SessionStopped" event = false ->
  forallb (fun callback => negb (sets_stopped callback)) (scheduled event h)
  = true.
Proof.
  unfold reports, scheduled.
  destruct (messages event) as [|msg msgs]; [now destruct (eventType event)|].
  destruct (eventType event); simpl; auto.
  - intros ->. simpl. now destruct (name msg =? "SessionStarted")%string.
  - intros _. destruct (name msg =? "ServiceOpened")%string; auto.
    induction (services h); simpl; auto.
Qed.

Lemma scheduled_service event h :
  reports SERVICE_STATUS "ServiceOpened" event = false ->
  forallb (fun callback => negb (sets_service callback)) (scheduled event h)
  = true.
Proof.
  unfold reports, scheduled.
  destruct (messages event) as [|msg msgs]; [now destruct (eventType event)|].
  destruct (eventType event); simpl; auto.
  - intros _. destruct (name msg =? "SessionStarted")%string;
      destruct (name msg =? "SessionStopped")%string; auto.
  - now intros ->.
Qed.

Lemma task_step_flags uuid4 t h :
  session_started (fst (task_step uuid4 t h)) = session_started h /\
  session_stopped (fst (task_step uuid4 t h)) = session_stopped h /\
  (some_service_set (fst (task_step uuid4 t h)) = true ->
   some_service_set h = true).
Proof.
  destruct t as [reqs|[|r rest]|[| |] name caller|[[c r] rest]| |e];
    try rewrite task_step_enter; try rewrite task_step_wait;
    try rewrite get_service_open_state;
    unfold task_step; cbn; auto.
  destruct (Dict.mem name (services h)); cbn; auto.
  repeat split. apply existsb_set_false.
Qed.

Section Delivered.
Variable uuid4 : nat -> CorrelationId.
Variable options : SessionOptions.

Lemma started_after_delivery actions :
  session_started (handler (run uuid4 actions (start options))) = true ->
  existsb (delivers (reports SESSION_STATUS "SessionStarted")) actions = true.
Proof.
  apply (set_after_delivery uuid4 session_started sets_started).
  - intros h h' Hq. apply Hq.
  - intros t h. now rewrite (proj1 (task_step_flags uuid4 t h)).
  - intros [| |n] h; [discriminate | reflexivity | reflexivity].
  - apply scheduled_started.
  - split; reflexivity.
Qed.

Lemma stopped_after_delivery actions :
  session_stopped (handler (run uuid4 actions (start options))) = true ->
  existsb (delivers (reports SESSION_STATUS "SessionStopped")) actions = true.
Proof.
  apply (set_after_delivery uuid4 session_stopped sets_stopped).
  - intros h h' Hq. apply Hq.
  - intros t h.
    now rewrite (proj1 (proj2 (task_step_flags uuid4 t h))).
  - intros [| |n] h; [reflexivity | discriminate | reflexivity].
  - apply scheduled_stopped.
  - split; reflexivity.
Qed.

Lemma service_after_delivery actions :
  some_service_set (handler (run uuid4 actions (start options))) = true ->
  existsb (delivers (reports SERVICE_STATUS "ServiceOpened")) actions = true.
Proof.
  apply (set_after_delivery uuid4 some_service_set sets_service).
  - intros h h' Hq. unfold some_service_set.
    now rewrite (quiet_services _ _ Hq).
  - intros t h. apply task_step_flags.
  - intros [| |n] h; [reflexivity | reflexivity | discriminate].
  - apply scheduled_service.
  - split; reflexivity.
Qed.

(** X11.  A flag is set only after the session has reported: if
    [session_started] is set, a session status event whose first message
    is [SessionStarted] has been delivered; likewise [session_stopped] and
    [SessionStopped]; and if the event of any service is set, a service
    status event whose first message is [ServiceOpened] has been
    delivered.  Nothing else sets a flag, [stop_session] neither. *)
Theorem flags_set_by_status_events (actions : list Action) :
  (session_started (handler (run uuid4 actions (start options))) = true ->
   existsb (delivers (reports SESSION_STATUS "SessionStarted")) actions
   = true) /\
  (session_stopped (handler (run uuid4 actions (start options))) = true ->
   existsb (delivers (reports SESSION_STATUS "SessionStopped")) actions
   = true) /\
  (forall n,
     Dict.get n (services (handler (run uuid4 actions (start options))))
     = Some true ->
     existsb (delivers (reports SERVICE_STATUS "ServiceOpened")) actions
     = true).
Proof.
  split; [apply started_after_delivery|].
  split; [apply stopped_after_delivery|].
  intros n Hn. apply service_after_delivery.
  now apply get_some_service_set with (n := n).
Qed.

(** X12.  No request reaches the session before the session has reported
    that it started and that a service opened: if [sendRequest] has been
    called, a [SessionStarted] status and a [ServiceOpened] status have
    been delivered before. *)
Theorem submitted_after_status_events
    (actions : list Action) (request : ReferenceDataRequest)
    (cid : CorrelationId) :
  In (sendRequest request cid)
     (session (handler (run uuid4 actions (start options)))) ->
  existsb (delivers (reports SESSION_STATUS "SessionStarted")) actions = true /\
  existsb (delivers (reports SERVICE_STATUS "ServiceOpened")) actions = true.
Proof.
  intros Hin.
  assert (Hinv : gate_inv (run uuid4 actions (start options))).
  { apply (run_invariant uuid4 gate_inv).
    - intros a s. apply gate_inv_step.
    - split; [|constructor]. intros r c [H|[H|[]]]; discriminate. }
  destruct (proj1 Hinv request cid Hin) as [Hs Hg]. split.
  - now apply started_after_delivery.
  - apply service_after_delivery.
    now apply get_some_service_set with (n := service_name request).
Qed.
End Delivered.

Lemma flags_set_by_status_events_witness :
  existsb (delivers (reports SESSION_STATUS "SessionStarted"))
          Scenario.submission = true.
Proof.
  apply (proj1 (flags_set_by_status_events Scenario.uuid4 Scenario.options
                  Scenario.submission)).
  reflexivity.
Defined.

Lemma submitted_after_status_events_witness :
  existsb (delivers (reports SESSION_STATUS "SessionStarted"))
          Scenario.submission = true /\
  existsb (delivers (reports SERVICE_STATUS "ServiceOpened"))
          Scenario.submission = true.
Proof.
  apply (submitted_after_status_events Scenario.uuid4 Scenario.options
           Scenario.submission Scenario.R1 Scenario.C1).
  vm_compute. do 4 right. left. reflexivity.
Defined.

(** ** A service opens *)

(** What a callback does to the dictionary of the services. *)
Definition callback_services (callback : Callback) (d : Dict.t string bool)
  : Dict.t string bool :=
  match callback with
  | service_event_set n => service_set n d
  | _ => d
  end.

Lemma fold_keeps_set n callbacks :
  forall d, Dict.get n d = Some true ->
    Dict.get n (fold_left (fun d cb => callback_services cb d) callbacks d)
    = Some true.
Proof.
  induction callbacks as [|cb l IH]; intros d Hd; simpl; auto.
  apply IH. destruct cb; simpl; auto. now apply get_service_set.
Qed.

Lemma fold_sets n callbacks :
  forall d, In (service_event_set n) callbacks -> Dict.mem n d = true ->
    Dict.get n (fold_left (fun d cb => callback_services cb d) callbacks d)
    = Some true.
Proof.
  induction callbacks as [|cb l IH]; intros d Hin Hm; [contradiction|].
  simpl. destruct Hin as [->|Hin].
  - apply fold_keeps_set. simpl. now apply get_service_set_same.
  - apply IH; auto. destruct cb; simpl; auto. now rewrite mem_service_set.
Qed.

Lemma mem_In_keys {V} (n : string) (d : Dict.t string V) :
  Dict.mem n d = true -> In n (map fst d).
Proof.
  unfold Dict.mem. induction d as [|[k v] d IH]; simpl; [discriminate|].
  destruct (String.eqb_spec n k) as [->|_]; auto.
Qed.

Section Broadcast.
Variable uuid4 : nat -> CorrelationId.

Lemma run_cons a actions s :
  run uuid4 (a :: actions) s = run uuid4 actions (step uuid4 a s).
Proof. reflexivity. Qed.

Lemma run_callbacks callbacks :
  forall s, loop (handler s) = callbacks ->
    services (handler (run uuid4 (repeat loop_runs_callback
                                         (List.length callbacks)) s)) =
    fold_left (fun d cb => callback_services cb d) callbacks
              (services (handler s)).
Proof.
  induction callbacks as [|cb l IH]; intros s Hl; [reflexivity|].
  cbn [List.length repeat]. rewrite run_cons.
  assert (Hstep : step uuid4 loop_runs_callback s =
                  {| handler := run_callback cb
                                  (set_loop (@tl Callback) (handler s));
                     tasks := tasks s |}).
  { simpl. now rewrite Hl. }
  rewrite Hstep, IH.
  - cbn [handler fold_left]. now destruct cb.
  - cbn [handler]. destruct cb; simpl; now rewrite Hl.
Qed.

(** X13.  A service status event that starts with [ServiceOpened] opens
    every service the handler knows, not one: once the loop has run the
    callbacks it holds after the event, the event of every service in
    [self.services] is set, whichever service the session opened. *)
Theorem service_opened_sets_every_service
    (s : System) (event : Event) (msg : Message) (rest : list Message)
    (n : string) :
  eventType event = SERVICE_STATUS ->
  messages event = msg :: rest ->
  name msg = "ServiceOpened"%string ->
  Dict.mem n (services (handler s)) = true ->
  Dict.get n
    (services (handler (run uuid4
       (event_arrives event ::
        repeat loop_runs_callback
               (List.length (loop (handler s)) +
                List.length (services (handler s)))) s))) = Some true.
Proof.
  intros Ht Hm Hname Hn. rewrite run_cons.
  pose proof (call_loop_session event (handler s)) as [Hloop _].
  destruct (call_spec event (handler s)) as (dq & res & (_ & _ & Hq) & _).
  assert (Hsched : scheduled event (handler s) =
                   map (fun item : string * bool => service_event_set (fst item))
                       (services (handler s))).
  { unfold scheduled. rewrite Ht, Hm, Hname. reflexivity. }
  rewrite Hsched in Hloop.
  replace (List.length (loop (handler s)) + List.length (services (handler s)))
    with (List.length (loop (handler (step uuid4 (event_arrives event) s)))).
  - rewrite run_callbacks by reflexivity.
    apply fold_sets.
    + cbn [step handler]. rewrite Hloop. apply in_or_app. right.
      apply mem_In_keys in Hn. apply in_map_iff in Hn as ([k v] & <- & Hin).
      apply in_map_iff. now exists (k, v).
    + cbn [step handler]. now rewrite (quiet_services _ _ Hq).
  - cbn [step handler]. now rewrite Hloop, length_app, length_map.
Qed.
End Broadcast.

Lemma service_opened_sets_every_service_witness :
  Dict.get "//blp/mktdata"%string
    (services (handler (run Scenario.uuid4
       (event_arrives Scenario.ServiceOpened ::
        repeat loop_runs_callback 2)
       (run Scenario.uuid4
            [call_get_service "//blp/mktdata"%string; task_runs 1]
            (run Scenario.uuid4 Scenario.submission
                 (start Scenario.options)))))) = Some true.
Proof.
  apply (service_opened_sets_every_service Scenario.uuid4
           (run Scenario.uuid4
                [call_get_service "//blp/mktdata"%string; task_runs 1]
                (run Scenario.uuid4 Scenario.submission
                     (start Scenario.options)))
           Scenario.ServiceOpened (Scenario.status "ServiceOpened") []);
    reflexivity.
Defined.

(** ** [send_requests] from the first line to the last *)

Section SendRequests.
Variable uuid4 : nat -> CorrelationId.

(** The loop runs the coroutine [n] steps, nothing else in between. *)
Fixpoint run_task (n : nat) (t : Task) (h : Handler) : Handler * Task :=
  match n with
  | 0 => (h, t)
  | S n' =>
      run_task n' (snd (task_step uuid4 t h)) (fst (task_step uuid4 t h))
  end.

(** The calls on the session that submitting [requests] makes, the first
    correlation id being draw [k] of [uuid.uuid4]. *)
Fixpoint submissions (k : nat) (requests : list ReferenceDataRequest)
  : list SessionCall :=
  match requests with
  | [] => []
  | request :: rest =>
      getService (service_name request) ::
      sendRequest request (uuid4 k) :: submissions (S k) rest
  end.

(** The table after registering [requests] from draw [k] on. *)
Fixpoint registrations (k : nat) (requests : list ReferenceDataRequest)
    (d : Dict.t CorrelationId ReferenceDataRequest)
  : Dict.t CorrelationId ReferenceDataRequest :=
  match requests with
  | [] => d
  | request :: rest => registrations (S k) rest (Dict.set (uuid4 k) request d)
  end.

Lemma run_task_add n m t h :
  run_task (n + m) t h =
  run_task m (snd (run_task n t h)) (fst (run_task n t h)).
Proof.
  revert t h. induction n as [|n IH]; intros t h; simpl; auto.
Qed.

Lemma task_step_enter_known n caller h :
  Dict.mem n (services h) = true ->
  task_step uuid4 (in_get_service gs_enter n caller) h =
  (set_get_service_calls (fun l => l ++ [n]) h,
   in_get_service gs_wait n caller).
Proof.
  intros Hm. rewrite task_step_enter, get_service_open_state. cbn.
  now rewrite Hm.
Qed.

Lemma task_step_wait_set n caller h :
  Dict.get n (services h) = Some true ->
  task_step uuid4 (in_get_service gs_wait n caller) h =
  (h, in_get_service gs_return n caller).
Proof.
  intros Hg. unfold task_step, task_body, bind, services_getitem.
  now rewrite Hg.
Qed.

(** One turn of the loop of [send_requests] when the service is open. *)
Lemma iteration_open request rest h :
  Dict.get (service_name request) (services h) = Some true ->
  run_task 5 (at_for (request :: rest)) h =
  (set_logger (fun l => l ++ [(DEBUG, log_request_send request)])
     (set_session
        (fun l => l ++ [sendRequest request (uuid4 (uuid_calls h))])
        (set_session (fun l => l ++ [getService (service_name request)])
           (set_get_service_calls (fun l => l ++ [service_name request])
              (set_requests (Dict.set (uuid4 (uuid_calls h)) request)
                 (set_uuid_calls S h))))),
   at_for rest).
Proof.
  intros Hg.
  assert (Hm : Dict.mem (service_name request) (services h) = true).
  { apply mem_get. eauto. }
  change (run_task 5 (at_for (request :: rest)) h)
    with (run_task 4
            (in_get_service gs_enter (service_name request)
               (Some (uuid4 (uuid_calls h), request, rest)))
            (set_requests (Dict.set (uuid4 (uuid_calls h)) request)
               (set_uuid_calls S h))).
  cbn [run_task]. rewrite task_step_enter_known by exact Hm.
  cbn [fst snd]. rewrite task_step_wait_set by exact Hg.
  reflexivity.
Qed.

Lemma loop_open reqs :
  forall h,
    (forall request, In request reqs ->
       Dict.get (service_name request) (services h) = Some true) ->
    snd (run_task (1 + 5 * List.length reqs) (at_for reqs) h)
    = returned /\
    session (fst (run_task (1 + 5 * List.length reqs) (at_for reqs) h))
    = session h ++ submissions (uuid_calls h) reqs /\
    requests
      (fst (run_task (1 + 5 * List.length reqs) (at_for reqs) h))
    = registrations (uuid_calls h) reqs (requests h) /\
    uuid_calls (fst (run_task (1 + 5 * List.length reqs)
                              (at_for reqs) h))
    = uuid_calls h + List.length reqs /\
    queues (fst (run_task (1 + 5 * List.length reqs) (at_for reqs) h))
    = queues h.
Proof.
  induction reqs as [|request rest IH]; intros h Hopen.
  - simpl. rewrite app_nil_r, Nat.add_0_r. auto.
  - replace (1 + 5 * List.length (request :: rest))
      with (5 + (1 + 5 * List.length rest)) by (simpl; lia).
    rewrite run_task_add, iteration_open by (apply Hopen; now left).
    cbn [fst snd].
    match goal with
    | |- context [run_task _ (at_for rest) ?h5] =>
        destruct (IH h5) as (Ht & Hs & Hr & Hu & Hq)
    end.
    { intros r Hr. cbn. apply Hopen. now right. }
    rewrite Ht, Hs, Hr, Hu, Hq. cbn.
    rewrite <- !app_assoc. cbn. repeat split; auto; lia.
Qed.

(** X14.  Once the session has started and the services of the requests
    are open, [send_requests] runs through without waiting: after one step
    for its first line, five for every request and one to leave the loop
    it has returned.  It has drawn one correlation id per request,
    registered the requests under them in the order given, and called
    [getService] and then [sendRequest] once for every request, in that
    order, each request with its own id; it has pushed nothing. *)
Theorem send_requests_submits_in_order
    (reqs : list ReferenceDataRequest) (h : Handler) :
  session_started h = true ->
  (forall request, In request reqs ->
     Dict.get (service_name request) (services h) = Some true) ->
  snd (run_task (2 + 5 * List.length reqs) (send_requests reqs) h)
  = returned /\
  session (fst (run_task (2 + 5 * List.length reqs)
                         (send_requests reqs) h))
  = session h ++ submissions (uuid_calls h) reqs /\
  requests (fst (run_task (2 + 5 * List.length reqs)
                          (send_requests reqs) h))
  = registrations (uuid_calls h) reqs (requests h) /\
  uuid_calls (fst (run_task (2 + 5 * List.length reqs)
                            (send_requests reqs) h))
  = uuid_calls h + List.length reqs /\
  queues (fst (run_task (2 + 5 * List.length reqs)
                        (send_requests reqs) h))
  = queues h.
Proof.
  intros Hs Hopen.
  change (2 + 5 * List.length reqs)
    with (S (1 + 5 * List.length reqs)).
  cbn [run_task].
  assert (Hfirst : task_step uuid4 (send_requests reqs) h
                   = (h, at_for reqs)).
  { unfold task_step, send_requests. cbn. now rewrite Hs. }
  rewrite Hfirst. cbn [fst snd]. now apply loop_open.
Qed.
End SendRequests.

Lemma send_requests_submits_in_order_witness :
  session (fst (run_task Scenario.uuid4 7
                  (send_requests [Scenario.R1]) Scenario.submitted))
  = session Scenario.submitted ++
    [getService "//blp/refdata"%string; sendRequest Scenario.R1 8%N].
Proof.
  destruct (send_requests_submits_in_order Scenario.uuid4
              [Scenario.R1] Scenario.submitted) as (_ & Hs & _).
  - reflexivity.
  - intros request [<-|[]]. reflexivity.
  - exact Hs.
Defined.

(** ** The keys of the table *)

Lemma keys_set {V} `{Key CorrelationId} (k : CorrelationId) (v : V)
    (d : Dict.t CorrelationId V) :
  map fst (Dict.set k v d) =
  if Dict.mem k d then map fst d else map fst d ++ [k].
Proof.
  unfold Dict.mem. induction d as [|[k' v'] d IH]; simpl; auto.
  destruct (key_eqb k k') eqn:Hk; simpl; auto.
  rewrite IH. now destruct (Dict.get k d).
Qed.

Lemma not_mem_keys (k : CorrelationId)
    (d : Dict.t CorrelationId ReferenceDataRequest) :
  Dict.mem k d = false -> ~ In k (map fst d).
Proof.
  unfold Dict.mem. induction d as [|[k' v'] d IH]; simpl; auto.
  destruct (N.eqb_spec k k') as [->|Hne]; [discriminate|].
  intros Hm [Heq|Hin]; [congruence | now apply IH].
Qed.

Lemma mem_keys (k : CorrelationId)
    (d : Dict.t CorrelationId ReferenceDataRequest) :
  In k (map fst d) -> Dict.mem k d = true.
Proof.
  intros Hin. destruct (Dict.mem k d) eqn:Hm; auto.
  now apply not_mem_keys in Hm.
Qed.

Lemma mem_In_keys_N (k : CorrelationId)
    (d : Dict.t CorrelationId ReferenceDataRequest) :
  Dict.mem k d = true -> In k (map fst d).
Proof.
  intros Hm. destruct (in_dec N.eq_dec k (map fst d)) as [Hin|Hin]; auto.
  assert (Hf : Dict.mem k d = false).
  { destruct (Dict.mem k d) eqn:Hm'; auto.
    exfalso. apply Hin. clear Hin Hm. unfold Dict.mem in Hm'.
    induction d as [|[k' v'] d IH]; simpl in *; [discriminate|].
    destruct (N.eqb_spec k k') as [->|_]; auto. }
  congruence.
Qed.

Section Keys.
Variable uuid4 : nat -> CorrelationId.

Definition keys_distinct (h : Handler) : Prop :=
  NoDup (map fst (requests h)).

Definition keys_in_order (h : Handler) : Prop :=
  map fst (requests h) = map uuid4 (seq 0 (uuid_calls h)).

Lemma keys_distinct_step a s :
  keys_distinct (handler s) -> keys_distinct (handler (step uuid4 a s)).
Proof.
  apply (step_handler_invariant uuid4 keys_distinct).
  - intros h h' Hq. unfold keys_distinct. now rewrite (quiet_requests _ _ Hq).
  - intros [| |n] h Hk; exact Hk.
  - intros t h Hk. unfold keys_distinct in *.
    destruct t as [reqs|[|r rest]|[| |] name caller|[[c r] rest]| |e];
      try rewrite task_step_enter; try rewrite task_step_wait;
      try rewrite get_service_open_state;
      unfold task_step; cbn; auto.
    + rewrite keys_set.
      destruct (Dict.mem (uuid4 (uuid_calls h)) (requests h)) eqn:Hm; auto.
      apply NoDup_app; auto.
      * repeat constructor. intros [].
      * intros k Hin [<-|[]]. now apply not_mem_keys in Hm.
    + destruct (Dict.mem name (services h)); auto.
Qed.

Hypothesis uuid4_fresh : forall m n, uuid4 m = uuid4 n -> m = n.

Lemma keys_in_order_step a s :
  keys_in_order (handler s) -> keys_in_order (handler (step uuid4 a s)).
Proof.
  apply (step_handler_invariant uuid4 keys_in_order).
  - intros h h' Hq. unfold keys_in_order.
    now rewrite (quiet_requests _ _ Hq), (quiet_uuid _ _ Hq).
  - intros [| |n] h Hk; exact Hk.
  - intros t h Hk. unfold keys_in_order in *.
    destruct t as [reqs|[|r rest]|[| |] name caller|[[c r] rest]| |e];
      try rewrite task_step_enter; try rewrite task_step_wait;
      try rewrite get_service_open_state;
      unfold task_step; cbn; auto.
    + rewrite keys_set.
      destruct (Dict.mem (uuid4 (uuid_calls h)) (requests h)) eqn:Hm.
      * exfalso. apply mem_In_keys_N in Hm. rewrite Hk in Hm.
        apply in_map_iff in Hm as (k & Heq & Hin).
        apply uuid4_fresh in Heq. apply in_seq in Hin. lia.
      * transitivity (map uuid4 (seq 0 (S (uuid_calls h))));
          [|reflexivity].
        rewrite Hk, seq_S, map_app. reflexivity.
    + destruct (Dict.mem name (services h)); auto.
Qed.
End Keys.

(** X15.  The table never holds a correlation id twice.  If [uuid.uuid4]
    never returns a value twice, the table has one entry for every draw,
    in the order of the draws: every request that [send_requests] has
    taken up has an entry of its own, and the entries are as many as the
    draws. *)
Theorem table_keys
    (uuid4 : nat -> CorrelationId) (options : SessionOptions)
    (actions : list Action) :
  NoDup (map fst (requests (handler (run uuid4 actions (start options))))) /\
  ((forall m n, uuid4 m = uuid4 n -> m = n) ->
   map fst (requests (handler (run uuid4 actions (start options)))) =
   map uuid4 (seq 0 (uuid_calls (handler (run uuid4 actions (start options)))))).
Proof.
  split.
  - apply (run_invariant uuid4 (fun s => keys_distinct (handler s))).
    + intros a s. apply keys_distinct_step.
    + constructor.
  - intros Hfresh.
    apply (run_invariant uuid4 (fun s => keys_in_order uuid4 (handler s))).
    + intros a s. now apply keys_in_order_step.
    + reflexivity.
Qed.

Lemma table_keys_witness :
  map fst (requests Scenario.submitted) = [7%N].
Proof.
  unfold Scenario.submitted.
  rewrite (proj2 (table_keys Scenario.uuid4 Scenario.options
                    Scenario.submission)); [reflexivity|].
  intros m n Heq. unfold Scenario.uuid4 in Heq. lia.
Defined.

(** ** Everything an event pushes *)

(** What the body of the loop of [_partial_handler] pushes for a message,
    whatever the table holds. *)
Definition msg_pushes (d : Dict.t CorrelationId ReferenceDataRequest)
    (msg : Message) : list (nat * option Message) :=
  if is_error msg then
    match check d (correlationIds msg) with
    | Ok _ => map sentinel_for (owners d (correlationIds msg))
    | Raise _ => []
    end
  else
    map (fun r => (request_id r, Some msg))
        (owners d (found d (correlationIds msg))).

(** What [_partial_handler] pushes: the loop ends with the first message
    that has a correlation id which is not in the table. *)
Fixpoint partial_pushes (d : Dict.t CorrelationId ReferenceDataRequest)
    (msgs : list Message) : list (nat * option Message) :=
  match msgs with
  | [] => []
  | msg :: rest =>
      msg_pushes d msg ++
      (if registered d (correlationIds msg) then partial_pushes d rest else [])
  end.

(** The messages in front of the first one that has a correlation id which
    is not in the table. *)
Fixpoint before_missing (d : Dict.t CorrelationId ReferenceDataRequest)
    (msgs : list Message) : list Message :=
  match msgs with
  | [] => []
  | msg :: rest =>
      if registered d (correlationIds msg) then msg :: before_missing d rest
      else []
  end.

Lemma partial_handler_msg_effect msg h :
  effect (_partial_handler_msg msg) h (msg_pushes (requests h) msg)
         (check (requests h) (correlationIds msg)).
Proof.
  pose proof (effect_is_error_msg msg h) as He.
  unfold msg_pushes, _partial_handler_msg.
  destruct (is_error msg) eqn:Herr.
  - destruct (check (requests h) (correlationIds msg)) as [[]|e].
    + eapply effect_bind_end; [exact He | apply effect_ret].
    + now apply effect_bind_raise.
  - pose proof (effect_forward_found msg (correlationIds msg)
                  (fst (_is_error_msg msg h))) as Ef.
    rewrite (effect_requests _ _ _ _ He) in Ef.
    eapply effect_bind_nil; [exact He | exact Ef].
Qed.

Lemma partial_handler_effect msgs :
  forall h,
    effect (for_each _partial_handler_msg msgs) h
           (partial_pushes (requests h) msgs)
           (check (requests h) (flat_map correlationIds msgs)).
Proof.
  induction msgs as [|msg rest IH]; intros h.
  - apply effect_ret.
  - pose proof (partial_handler_msg_effect msg h) as E1.
    cbn [for_each partial_pushes flat_map]. rewrite check_app.
    destruct (registered (requests h) (correlationIds msg)) eqn:Hreg.
    + rewrite (check_registered _ _ Hreg) in *.
      specialize (IH (fst (_partial_handler_msg msg h))).
      rewrite (effect_requests _ _ _ _ E1) in IH.
      eapply effect_bind; eauto.
    + destruct (check_unregistered _ _ Hreg) as [e He].
      rewrite He in *. rewrite app_nil_r. now apply effect_bind_raise.
Qed.

Lemma partial_pushes_registered d msgs :
  all_registered d msgs = true ->
  partial_pushes d msgs = flat_map (forwarding d) msgs.
Proof.
  unfold all_registered. induction msgs as [|msg rest IH]; simpl; auto.
  intros [Hm Hr]%andb_prop. rewrite Hm, (IH Hr). f_equal.
  unfold msg_pushes, forwarding.
  rewrite (check_registered _ _ Hm), (found_registered _ _ Hm).
  now destruct (is_error msg).
Qed.

(** Every push of [__call__], for every event and every state. *)
Lemma call_pushed event h :
  pushed (__call__ event) h =
  match eventType event with
  | RESPONSE =>
      partial_pushes (requests h) (messages event) ++
      match check (requests h) (flat_map correlationIds (messages event)) with
      | Ok _ => flat_map (closing (requests h)) (messages event)
      | Raise _ => []
      end
  | PARTIAL_RESPONSE => partial_pushes (requests h) (messages event)
  | _ => []
  end.
Proof.
  pose proof (partial_handler_effect (messages event)
                (fst (LOGGER_debug (log_event_received (eventType event)) h)))
    as Ep.
  pose proof (closing_loop_spec (messages event)
                (fst (for_each _partial_handler_msg (messages event)
                   (fst (LOGGER_debug
                           (log_event_received (eventType event)) h)))))
    as (dq2 & E2 & _ & X2).
  rewrite (effect_requests _ _ _ _ Ep) in E2, X2.
  pose proof (session_handler_spec event
                (fst (LOGGER_debug (log_event_received (eventType event)) h)))
    as (res1 & Es).
  pose proof (service_handler_spec event
                (fst (LOGGER_debug (log_event_received (eventType event)) h)))
    as (res2 & Ev).
  change (requests (fst (LOGGER_debug
                           (log_event_received (eventType event)) h)))
    with (requests h) in Ep, E2, X2.
  pose proof (effect_call_known event h) as Hknown.
  pose proof (effect_call_unknown event h) as Hunknown.
  destruct (eventType event) eqn:Ht;
    try (apply (effect_pushed _ _ _ _ (Hunknown eq_refl))).
  - apply (effect_pushed _ _ _ _
             (Hknown session_handler_method _ _ eq_refl Es)).
  - destruct (check (requests h) (flat_map correlationIds (messages event)))
      as [[]|e] eqn:Hc.
    + rewrite (X2 eq_refl) in E2.
      apply (effect_pushed _ _ _ _
               (Hknown response_handler_method _ _ eq_refl
                       (effect_bind _ _ _ _ _ _ _ Ep E2))).
    + rewrite app_nil_r.
      apply (effect_pushed _ _ _ _
               (Hknown response_handler_method _ _ eq_refl
                       (effect_bind_raise _ _ _ _ _ Ep))).
  - apply (effect_pushed _ _ _ _
             (Hknown partial_handler_method _ _ eq_refl Ep)).
  - apply (effect_pushed _ _ _ _
             (Hknown service_handler_method _ _ eq_refl Ev)).
Qed.

Lemma call_queues event h :
  queues (fst (__call__ event h)) = queues h ++ pushed (__call__ event) h.
Proof.
  destruct (call_spec event h) as (dq & res & E & _).
  rewrite (effect_pushed _ _ _ _ E). apply E.
Qed.

(** A push for [msg] goes to a request that [msg] names, and it is the
    sentinel exactly if [msg] has the error marker. *)
Lemma msg_pushes_In d msg p :
  In p (msg_pushes d msg) -> named_by d [msg] p /\ item_of msg p.
Proof.
  unfold msg_pushes, item_of. intros Hin.
  assert (Hr : exists r cs, In r (owners d cs) /\
                 (forall c, In c cs -> In c (correlationIds msg)) /\
                 p = (request_id r, if is_error msg then None else Some msg)).
  { destruct (is_error msg).
    - destruct (check d (correlationIds msg)); [|contradiction].
      apply in_map_iff in Hin as (r & <- & Hr). eauto.
    - apply in_map_iff in Hin as (r & <- & Hr).
      exists r, (found d (correlationIds msg)).
      split; [auto|]. split; [apply found_In | reflexivity]. }
  destruct Hr as (r & cs & Hr & Hcs & ->).
  apply owners_In in Hr as (c & Hc & Hget).
  split; [|reflexivity]. exists msg, c, r. simpl. auto.
Qed.

Lemma partial_pushes_In d msgs p :
  In p (partial_pushes d msgs) ->
  exists msg, In msg msgs /\ In p (msg_pushes d msg).
Proof.
  induction msgs as [|msg rest IH]; simpl; [contradiction|].
  intros [Hin|Hin]%in_app_or; [eauto|].
  destruct (registered d (correlationIds msg)); [|contradiction].
  destruct (IH Hin) as (m & Hm & Hp). eauto.
Qed.

Lemma named_by_In d msgs msg p :
  In msg msgs -> named_by d [msg] p -> named_by d msgs p.
Proof.
  intros Hin (m & c & r & [<-|[]] & H). exists msg, c, r. auto.
Qed.

Lemma msg_pushes_sentinels d r msg :
  List.length (filter is_sentinel (pushed_to r (msg_pushes d msg))) =
  if registered d (correlationIds msg)
  then (if is_error msg then mentions d r msg else 0)
  else 0.
Proof.
  unfold msg_pushes, mentions.
  destruct (is_error msg).
  - destruct (registered d (correlationIds msg)) eqn:Hreg.
    + rewrite (check_registered _ _ Hreg).
      rewrite (pushed_to_const r None), filter_repeat. simpl.
      apply repeat_length.
    + destruct (check_unregistered _ _ Hreg) as [e ->]. reflexivity.
  - rewrite (pushed_to_const r (Some msg)), filter_repeat. simpl.
    now destruct (registered d (correlationIds msg)).
Qed.

Lemma partial_pushes_sentinels d r msgs :
  List.length (filter is_sentinel (pushed_to r (partial_pushes d msgs))) =
  error_mentions d r (before_missing d msgs).
Proof.
  unfold error_mentions.
  induction msgs as [|msg rest IH]; simpl; auto.
  rewrite pushed_to_app, filter_app, length_app, msg_pushes_sentinels.
  destruct (registered d (correlationIds msg)); simpl; auto.
Qed.

Lemma check_not_all_registered d msgs :
  all_registered d msgs = false ->
  exists e, check d (flat_map correlationIds msgs) = Raise e.
Proof.
  unfold all_registered.
  induction msgs as [|msg msgs IH]; simpl; [discriminate|].
  rewrite check_app.
  destruct (registered d (correlationIds msg)) eqn:Hm.
  - rewrite (check_registered _ _ Hm). auto.
  - destruct (check_unregistered _ _ Hm) as [e ->]. eauto.
Qed.

(** ** A [RESPONSE] event with an unknown correlation id *)

(** X16.  When one correlation id of a [RESPONSE] event is not in the
    table, [__call__] raises the [KeyError] of a missing id and the second
    loop of [_response_handler] is never reached: what the event pushes is
    what the first loop has pushed up to the lookup that raised, and the
    sentinels a request receives are those for the messages with the error
    marker that name it and stand in front of the first message with a
    missing id.  A request that only other messages name is not closed,
    registered or not. *)
Theorem response_with_unregistered_id_closes_nothing
    (event : Event) (h : Handler) (r : nat) :
  eventType event = RESPONSE ->
  all_registered (requests h) (messages event) = false ->
  (exists c,
     In c (flat_map correlationIds (messages event)) /\
     Dict.mem c (requests h) = false /\
     snd (__call__ event h) = Raise (KeyError (key_correlation_id c))) /\
  pushed (__call__ event) h = partial_pushes (requests h) (messages event) /\
  sentinels r (fst (__call__ event h)) =
    sentinels r h +
    error_mentions (requests h) r
      (before_missing (requests h) (messages event)).
Proof.
  intros Ht Hreg.
  destruct (check_not_all_registered _ _ Hreg) as [e He].
  assert (Hp : pushed (__call__ event) h =
               partial_pushes (requests h) (messages event)).
  { rewrite call_pushed, Ht, He. apply app_nil_r. }
  split; [|split; [exact Hp|]].
  - destruct (check_raises _ _ _ He) as (c & Hin & Hmem & ->).
    exists c. split; [exact Hin|]. split; [exact Hmem|].
    destruct (call_response_spec event h Ht) as (dq & (Hres & _) & _).
    now rewrite He in Hres.
  - rewrite (sentinels_app r _ _ _ (call_queues event h)), Hp.
    now rewrite partial_pushes_sentinels.
Qed.

Lemma response_with_unregistered_id_closes_nothing_witness :
  sentinels 1
    (fst (__call__ {| eventType := RESPONSE;
                      messages := [Scenario.data "PX_LAST" [Scenario.C1];
                                   Scenario.data "PX_LAST" [9%N];
                                   Scenario.failure [Scenario.C1]] |}
                   Scenario.submitted)) = 0.
Proof.
  destruct (response_with_unregistered_id_closes_nothing
              {| eventType := RESPONSE;
                 messages := [Scenario.data "PX_LAST" [Scenario.C1];
                              Scenario.data "PX_LAST" [9%N];
                              Scenario.failure [Scenario.C1]] |}
              Scenario.submitted 1) as (_ & _ & Hs).
  - reflexivity.
  - reflexivity.
  - rewrite Hs. reflexivity.
Defined.

(** ** C2: where the sentinels come from *)

Lemma error_mentions_positive d r msgs msg :
  In msg msgs -> is_error msg = true -> 1 <= mentions d r msg ->
  1 <= error_mentions d r msgs.
Proof.
  unfold error_mentions.
  induction msgs as [|m msgs IH]; simpl; [contradiction|].
  intros [->|Hin] He Hm.
  - rewrite He. lia.
  - specialize (IH Hin He Hm). lia.
Qed.

(** C2, as the code has it.  No operation of the handler takes an entry
    out of the table of pending requests: a correlation id that is
    registered stays registered whatever happens afterwards.  The queue of
    a request receives the terminal sentinel

    - from a [RESPONSE] event all of whose correlation ids are registered,
      once for every time a message of the event names the request and
      once more for every time a message with the error marker names it,
      so at least once if the event names it;
    - from a [PARTIAL_RESPONSE] event all of whose correlation ids are
      registered, once for every time a message with the error marker
      names the request;
    - from [stop_session], once for every entry that holds the request,
      closed before or not;

    and from nothing else: the loop and the coroutines push nothing, and a
    sentinel that an event pushes goes to a request that the event names,
    either because the event is a [RESPONSE] or for a message with the
    error marker that names the request. *)
Theorem table_entries_stay (uuid4 : nat -> CorrelationId) :
  (forall actions s cid,
     Dict.mem cid (requests (handler s)) = true ->
     Dict.mem cid (requests (handler (run uuid4 actions s))) = true) /\
  (forall event h r,
     eventType event = RESPONSE ->
     all_registered (requests h) (messages event) = true ->
     sentinels r (fst (__call__ event h)) =
       sentinels r h + error_mentions (requests h) r (messages event)
                     + references (requests h) r (messages event)) /\
  (forall event h r,
     eventType event = PARTIAL_RESPONSE ->
     all_registered (requests h) (messages event) = true ->
     sentinels r (fst (__call__ event h)) =
       sentinels r h + error_mentions (requests h) r (messages event)) /\
  (forall d msgs msg c request,
     In msg msgs -> In c (correlationIds msg) ->
     Dict.get c d = Some request ->
     1 <= references d (request_id request) msgs /\
     (is_error msg = true ->
      1 <= error_mentions d (request_id request) msgs)) /\
  (forall h r,
     snd (stop_session h) = Ok tt /\
     requests (fst (stop_session h)) = requests h /\
     pushed stop_session h = map sentinel_for (Dict.values (requests h)) /\
     sentinels r (fst (stop_session h)) =
       sentinels r h + entries r (requests h)) /\
  (forall a s,
     match a with
     | event_arrives _ | call_stop_session => True
     | _ => queues (handler (step uuid4 a s)) = queues (handler s)
     end) /\
  (forall event h p,
     In p (pushed (__call__ event) h) -> snd p = None ->
     (eventType event = RESPONSE /\
      named_by (requests h) (messages event) p) \/
     (exists msg, In msg (messages event) /\ is_error msg = true /\
                  named_by (requests h) [msg] p)).
Proof.
  split; [|split; [|split; [|split; [|split; [|split]]]]].
  - intros actions s cid. apply run_keeps_registered.
  - intros event h r Ht Hreg.
    rewrite (sentinels_app r _ _ _ (call_queues event h)).
    rewrite call_pushed, Ht, (check_all_registered _ _ Hreg).
    rewrite (partial_pushes_registered _ _ Hreg), pushed_to_app.
    rewrite pushed_to_forwarding, pushed_to_closing.
    rewrite filter_app, length_app, forwarded_sentinel_count.
    rewrite filter_repeat. simpl. rewrite repeat_length. lia.
  - intros event h r Ht Hreg.
    rewrite (sentinels_app r _ _ _ (call_queues event h)).
    rewrite call_pushed, Ht, (partial_pushes_registered _ _ Hreg).
    now rewrite pushed_to_forwarding, forwarded_sentinel_count.
  - intros d msgs msg c request Hmsg Hc Hget.
    assert (Hm : 1 <= mentions d (request_id request) msg).
    { now apply mentions_positive with (c := c) (request := request). }
    split.
    + now apply references_positive with (msg := msg).
    + intros He. now apply error_mentions_positive with (msg := msg).
  - intros h r. pose proof (stop_session_spec h) as E.
    pose proof (effect_pushed _ _ _ _ E) as Hp.
    destruct E as (Hres & Hq & Hquiet).
    split; [exact Hres|]. split; [apply Hquiet|]. split; [exact Hp|].
    rewrite (sentinels_app r _ _ _ Hq). f_equal.
    unfold entries. rewrite (pushed_to_const r None), filter_repeat.
    simpl. apply repeat_length.
  - intros a s. pose proof (step_queues uuid4 a s) as Hq.
    destruct a; auto; now rewrite app_nil_r in Hq.
  - intros event h p Hin Hnone. rewrite call_pushed in Hin.
    assert (Hpart : In p (partial_pushes (requests h) (messages event)) ->
              exists msg, In msg (messages event) /\ is_error msg = true /\
                          named_by (requests h) [msg] p).
    { intros Hp. apply partial_pushes_In in Hp as (msg & Hmsg & Hp).
      apply msg_pushes_In in Hp as [Hnamed Hitem].
      exists msg. split; [exact Hmsg|]. split; [|exact Hnamed].
      red in Hitem. rewrite Hnone in Hitem.
      destruct (is_error msg); [reflexivity | discriminate]. }
    destruct (eventType event) eqn:Ht; try contradiction.
    + left. split; [reflexivity|].
      apply in_app_or in Hin as [Hin|Hin].
      * destruct (Hpart Hin) as (msg & Hmsg & _ & Hnamed).
        now apply named_by_In with (msg := msg).
      * destruct (check (requests h)
                    (flat_map correlationIds (messages event)));
          [|contradiction].
        apply in_flat_map in Hin as (msg & Hmsg & Hin).
        apply in_map_iff in Hin as (q & <- & Hq).
        apply owners_In in Hq as (c & Hc & Hget).
        exists msg, c, q. auto.
    + right. now apply Hpart.
Qed.

Lemma table_entries_stay_witness :
  Dict.mem Scenario.C1
    (requests (handler (run Scenario.uuid4
       [ event_arrives {| eventType := RESPONSE;
                          messages := [Scenario.msg1] |};
         call_stop_session ]
       (run Scenario.uuid4 Scenario.submission
            (start Scenario.options))))) = true /\
  sentinels 1 (fst (__call__ {| eventType := RESPONSE;
                                messages := [Scenario.msg1] |}
                             Scenario.submitted)) = 1.
Proof.
  destruct (table_entries_stay Scenario.uuid4) as (Hkeep & Hresp & _).
  split.
  - apply Hkeep. reflexivity.
  - rewrite (Hresp {| eventType := RESPONSE; messages := [Scenario.msg1] |}
               Scenario.submitted 1); reflexivity.
Defined.
